(** * A model of [common.js], the shared script of the LLDB data-structure
    visualizers (theme, icons, export, search and highlight)

    The script of [LLDB_Formatters/templates/static/common.js] is embedded
    function by function.  Everything the script reads or changes is gathered
    in one record, [World]: the page (the [<body>] classes and the elements
    the script looks up by id), [localStorage], the three globals [network],
    [nodes] and [edges] of the surrounding page, the listeners registered for
    [DOMContentLoaded], and a trace of the calls the script makes to the
    outside (console, storage, [DataSet.update], downloads).

    Conventions.
    - Strings are byte strings.  [toLowerCase] folds the letters A-Z and
      [trim] strips the white space of the ASCII range (TAB, LF, VT, FF, CR,
      SPACE); the case mappings and spaces beyond ASCII are outside the model.
      Where a statement about the search depends on what counts as blank or
      as the same letter, it is made for [searchNodesOver], the search with
      the two functions of the browser as parameters, of which [searchNodes]
      is the instance at the two functions above.
    - A global that is "absent" holds [undefined] or [null] ([None] here); the
      globals are declared by the page, so reading one never raises.
    - [document.body] exists when the script runs.
    - [innerHTML] is modelled by the nodes the assigned markup parses to;
      where the script pastes the text of a button into markup, the parse is
      modelled for text without markup characters, and [applyIcons] has no
      result ([None]) otherwise. *)

From Stdlib Require Import ZArith Ascii String List Bool Lia.
From stdpp Require Import base option list gmap strings.

Local Open Scope string_scope.
Local Open Scope list_scope.

(** ** Strings as the script uses them *)

Module JsString.

Definition is_upper (c : ascii) : bool :=
  (65 <=? nat_of_ascii c)%nat && (nat_of_ascii c <=? 90)%nat.

Definition lower_char (c : ascii) : ascii :=
  if is_upper c then ascii_of_nat (nat_of_ascii c + 32) else c.

(** [s.toLowerCase()] *)
Fixpoint toLowerCase (s : string) : string :=
  match s with
  | EmptyString => EmptyString
  | String c r => String (lower_char c) (toLowerCase r)
  end.

(** [s.startsWith(q)], the test [includes] makes at every position *)
Fixpoint startsWith (s q : string) : bool :=
  match q, s with
  | EmptyString, _ => true
  | String _ _, EmptyString => false
  | String a q', String b s' => Ascii.eqb a b && startsWith s' q'
  end.

(** [s.includes(q)] *)
Fixpoint includes (s q : string) : bool :=
  startsWith s q ||
  match s with
  | EmptyString => false
  | String _ s' => includes s' q
  end.

Definition is_ws (c : ascii) : bool :=
  let n := nat_of_ascii c in
  ((9 <=? n)%nat && (n <=? 13)%nat) || (n =? 32)%nat.

Fixpoint trimStart (s : string) : string :=
  match s with
  | EmptyString => EmptyString
  | String c r => if is_ws c then trimStart r else s
  end.

Fixpoint trimEnd (s : string) : string :=
  match s with
  | EmptyString => EmptyString
  | String c r =>
      match trimEnd r with
      | EmptyString => if is_ws c then EmptyString else String c EmptyString
      | r' => String c r'
      end
  end.

(** [s.trim()] *)
Definition trim (s : string) : string := trimEnd (trimStart s).

(** JavaScript truthiness of a string: only the empty string is falsy. *)
Definition truthy (s : string) : bool :=
  match s with EmptyString => false | _ => true end.

(** The words of the specification, independent of [toLowerCase]. *)

(** Two characters are the same letter up to case. *)
Definition same_letter (a b : ascii) : Prop :=
  a = b
  \/ (is_upper a = true /\ nat_of_ascii b = (nat_of_ascii a + 32)%nat)
  \/ (is_upper b = true /\ nat_of_ascii a = (nat_of_ascii b + 32)%nat).

Inductive eq_ignore_case : string -> string -> Prop :=
| eic_nil : eq_ignore_case EmptyString EmptyString
| eic_cons a b s t :
    same_letter a b -> eq_ignore_case s t ->
    eq_ignore_case (String a s) (String b t).

(** [q] occurs in [s] as a substring, case ignored. *)
Definition contains_ignore_case (s q : string) : Prop :=
  exists pre mid post, s = pre +:+ mid +:+ post /\ eq_ignore_case mid q.

(** Every character of [s] is white space ([s] may be empty). *)
Fixpoint blank (s : string) : Prop :=
  match s with
  | EmptyString => True
  | String c r => is_ws c = true /\ blank r
  end.

End JsString.
Import JsString.

(** ** The colour palette *)

Module colorPalette.
Definition nodeDefault := "#7aa2f7".
Definition nodeBorder := "#565f89".
Definition nodeSelected := "#bb9af7".
Definition nodeSelectedBorder := "#9d7cd8".
Definition nodeHighlighted := "#e0af68".
Definition nodeHighlightedBorder := "#c49a61".
Definition nodeAnimated := "#9ece6a".
Definition nodeAnimatedBorder := "#73a84c".
Definition nodeSearchResult := "#f7768e".
Definition nodeSearchBorder := "#e06b83".
Definition nodeHover := "#9ece6a".
Definition edgeDefault := "#565f89".
Definition edgeSelected := "#bb9af7".
Definition edgeHighlighted := "#e0af68".
Definition textDefault := "#ffffffff".
End colorPalette.

(** A [color] attribute: a colour string, or an object literal listed field
    by field, as in [{ background: ..., border: ... }]. *)
Inductive jscolor :=
| ColorStr (s : string)
| ColorObj (fields : list (string * string)).

#[global] Instance jscolor_eq_dec : EqDecision jscolor.
Proof. solve_decision. Defined.

(** [{ background: colorPalette.nodeDefault, border: colorPalette.nodeBorder }] *)
Definition nodeDefaultColor : jscolor :=
  ColorObj [("background", colorPalette.nodeDefault);
            ("border", colorPalette.nodeBorder)].

(** [{ color: colorPalette.edgeDefault }] *)
Definition edgeDefaultColor : jscolor :=
  ColorObj [("color", colorPalette.edgeDefault)].

(** [{ background: colorPalette.nodeSearchResult,
       border: colorPalette.nodeSearchBorder }] *)
Definition searchResultColor : jscolor :=
  ColorObj [("background", colorPalette.nodeSearchResult);
            ("border", colorPalette.nodeSearchBorder)].

(** ** The record collections ([vis.DataSet])

    The two collections belong to the graph widget; the script only calls
    [getIds()], [get({filter})] and [update(list)] on them.  A collection is
    a finite map from ids to records, so an id names at most one record.
    [getIds] lists the ids in the map's own fixed order; nothing in the
    script depends on that order. *)

Inductive Id :=
| IdNum (n : Z)
| IdStr (s : string).

#[global] Instance Id_eq_dec : EqDecision Id.
Proof. solve_decision. Defined.

#[global] Instance Id_countable : Countable Id.
Proof.
  refine (inj_countable'
            (fun i => match i with IdNum n => inl n | IdStr s => inr s end)
            (fun x => match x with inl n => IdNum n | inr s => IdStr s end) _).
  by intros [].
Defined.

(** A node record without its id (the id is the key): [label] and [title]
    may be missing ([undefined]). *)
Record Node := {
  label : option string;
  title : option string;
  node_color : option jscolor;
}.

(** An edge record, reduced to the attribute the script touches. *)
Record Edge := {
  edge_color : option jscolor;
}.

(** One entry of the list handed to [update]: [{ id: ..., color: ... }]. *)
Record Update := {
  upd_id : Id;
  upd_color : jscolor;
}.

(** What [update] needs to know of a record type: how an entry's [color]
    is merged into a record (the other fields are kept), and the record
    that an entry for an unknown id creates. *)
Class Item (A : Type) := {
  with_color : jscolor -> A -> A;
  fresh_item : jscolor -> A;
  item_color : A -> option jscolor;
  item_color_with_color : forall c a, item_color (with_color c a) = Some c;
  with_color_with_color :
    forall c d a, with_color c (with_color d a) = with_color c a;
}.

#[global, refine] Instance Node_item : Item Node := {|
  with_color c n :=
    {| label := label n; title := title n; node_color := Some c |};
  fresh_item c := {| label := None; title := None; node_color := Some c |};
  item_color := node_color;
|}.
Proof. all: done. Defined.

#[global, refine] Instance Edge_item : Item Edge := {|
  with_color c e := {| edge_color := Some c |};
  fresh_item c := {| edge_color := Some c |};
  item_color := edge_color;
|}.
Proof. all: done. Defined.

Module DataSet.
Section DataSet.
Context {A : Type} `{Item A}.

(** [ds.getIds()] *)
Definition getIds (ds : gmap Id A) : list Id := (map_to_list ds).*1.

(** [ds.get({ filter: f })]: the records, each with its id, that pass [f]. *)
Definition get_filter (f : A -> bool) (ds : gmap Id A) : list (Id * A) :=
  filter (fun p : Id * A => f p.2 = true) (map_to_list ds).

(** One entry of [update]: merged into the record of that id when there is
    one, added as a new record otherwise. *)
Definition update1 (ds : gmap Id A) (u : Update) : gmap Id A :=
  match ds !! upd_id u with
  | Some a => <[upd_id u := with_color (upd_color u) a]> ds
  | None => <[upd_id u := fresh_item (upd_color u)]> ds
  end.

(** [ds.update(us)] *)
Definition update (us : list Update) (ds : gmap Id A) : gmap Id A :=
  foldl update1 ds us.

End DataSet.
End DataSet.

(** The update entries that give every id of a list the same colour. *)
Definition recolor (c : jscolor) (ids : list Id) : list Update :=
  (fun id => {| upd_id := id; upd_color := c |}) <$> ids.

(** ** The page *)

(** The child nodes of an element, as the HTML parser builds them from the
    markup the script assigns to [innerHTML].  [SvgIcon name] is the [<svg>]
    element parsed from [svgIcons[name]]: every entry of [svgIcons] is one
    [<svg>] element whose descendants are all elements ([path], [line],
    [circle], [rect], ...), with no text between the tags. *)
#[warnings="-register-all"] Inductive dnode :=
| Text (s : string)
| Span (cls : string) (children : list dnode)
| SvgIcon (name : string).

(** [node.textContent]: the text of the descendants, in document order. *)
Fixpoint textContent (n : dnode) : string :=
  match n with
  | Text s => s
  | Span _ ch => foldr (fun x acc => textContent x +:+ acc) "" ch
  | SvgIcon _ => ""
  end.

Definition textContents (l : list dnode) : string :=
  foldr (fun x acc => textContent x +:+ acc) "" l.

(** An element of the page, with the attributes the script reads or sets. *)
Record Element := {
  classList : list string;
  content : list dnode;
  elem_title : string;
  value : string;
  display : string;
}.

Definition set_classList (l : list string) (e : Element) : Element :=
  {| classList := l; content := content e; elem_title := elem_title e;
     value := value e; display := display e |}.

Definition set_content (c : list dnode) (e : Element) : Element :=
  {| classList := classList e; content := c; elem_title := elem_title e;
     value := value e; display := display e |}.

Definition set_elem_title (t : string) (e : Element) : Element :=
  {| classList := classList e; content := content e; elem_title := t;
     value := value e; display := display e |}.

Definition set_value (v : string) (e : Element) : Element :=
  {| classList := classList e; content := content e;
     elem_title := elem_title e; value := v; display := display e |}.

Definition set_display (d : string) (e : Element) : Element :=
  {| classList := classList e; content := content e;
     elem_title := elem_title e; value := value e; display := d |}.

(** [DOMTokenList]: the methods of [element.classList]. *)
Module DOMTokenList.

Definition contains (c : string) (l : list string) : bool :=
  bool_decide (c ∈ l).

Definition add (c : string) (l : list string) : list string :=
  if contains c l then l else l ++ [c].

Definition remove (c : string) (l : list string) : list string :=
  filter (fun x => x <> c) l.

Definition toggle (c : string) (l : list string) : list string :=
  if contains c l then remove c l else l ++ [c].

End DOMTokenList.

(** ** The rendering engine handle *)

(** [frame.canvas]: [toDataURL()] returns the encoded image, or raises (a
    tainted canvas) when [canvas_data] is [None]. *)
Record Frame := {
  canvas_data : option string;
}.

Record Canvas := {
  frame : option Frame;
}.

Record Network := {
  canvas : option Canvas;
  selection : list Id;
}.

(** [network.unselectAll()] *)
Definition unselectAll (n : Network) : Network :=
  {| canvas := canvas n; selection := [] |}.

(** ** The world of the script *)

(** A call the script makes to the outside. [StorageGet] and [StorageSet]
    record the call itself, whether or not the store answers. *)
Inductive Event :=
| ConsoleWarn (msg : string)
| ConsoleError (msg : string)
| StorageGet (key : string)
| StorageSet (key val : string)
| NodesUpdate (us : list Update)
| EdgesUpdate (us : list Update)
| Download (filename href : string).

(** The two callbacks the script registers for [DOMContentLoaded]: the one
    of the theme loader, which closes over [isLight], and the one that sets
    up the info panel. *)
Inductive Listener :=
| ThemeInit (isLight : bool)
| InfoInit.

Record World := {
  body_classList : list string;
  elems : gmap string Element;
  localStorage : option (gmap string string);
  network : option Network;
  nodes : option (gmap Id Node);
  edges : option (gmap Id Edge);
  listeners : list Listener;
  trace : list Event;
}.

Definition set_body_classList (l : list string) (w : World) : World :=
  {| body_classList := l; elems := elems w; localStorage := localStorage w;
     network := network w; nodes := nodes w; edges := edges w;
     listeners := listeners w; trace := trace w |}.

Definition set_elems (m : gmap string Element) (w : World) : World :=
  {| body_classList := body_classList w; elems := m;
     localStorage := localStorage w; network := network w; nodes := nodes w;
     edges := edges w; listeners := listeners w; trace := trace w |}.

Definition set_localStorage (s : option (gmap string string)) (w : World)
  : World :=
  {| body_classList := body_classList w; elems := elems w; localStorage := s;
     network := network w; nodes := nodes w; edges := edges w;
     listeners := listeners w; trace := trace w |}.

Definition set_network (n : option Network) (w : World) : World :=
  {| body_classList := body_classList w; elems := elems w;
     localStorage := localStorage w; network := n; nodes := nodes w;
     edges := edges w; listeners := listeners w; trace := trace w |}.

Definition set_nodes (n : option (gmap Id Node)) (w : World) : World :=
  {| body_classList := body_classList w; elems := elems w;
     localStorage := localStorage w; network := network w; nodes := n;
     edges := edges w; listeners := listeners w; trace := trace w |}.

Definition set_edges (e : option (gmap Id Edge)) (w : World) : World :=
  {| body_classList := body_classList w; elems := elems w;
     localStorage := localStorage w; network := network w; nodes := nodes w;
     edges := e; listeners := listeners w; trace := trace w |}.

Definition set_listeners (l : list Listener) (w : World) : World :=
  {| body_classList := body_classList w; elems := elems w;
     localStorage := localStorage w; network := network w; nodes := nodes w;
     edges := edges w; listeners := l; trace := trace w |}.

Definition set_trace (t : list Event) (w : World) : World :=
  {| body_classList := body_classList w; elems := elems w;
     localStorage := localStorage w; network := network w; nodes := nodes w;
     edges := edges w; listeners := listeners w; trace := t |}.

Definition log (e : Event) (w : World) : World :=
  set_trace (trace w ++ [e]) w.

(** [document.getElementById(id)] *)
Definition getElementById (id : string) (w : World) : option Element :=
  elems w !! id.

(** Writing back an element that was changed in place. *)
Definition set_element (id : string) (e : Element) (w : World) : World :=
  set_elems (<[id := e]> (elems w)) w.

(** How a call ends: with a value, or by raising. *)
Inductive completion (A : Type) :=
| Normal (a : A)
| Throw (name : string).
Arguments Normal {A} a.
Arguments Throw {A} name.

(** [localStorage.getItem(key)]; raises when the store is unavailable. *)
Definition getItem (key : string) (w : World)
  : completion (option string) * World :=
  match localStorage w with
  | Some m => (Normal (m !! key), log (StorageGet key) w)
  | None => (Throw "SecurityError", log (StorageGet key) w)
  end.

(** [localStorage.setItem(key, val)]; raises when the store is unavailable. *)
Definition setItem (key val : string) (w : World) : completion unit * World :=
  match localStorage w with
  | Some m =>
      (Normal (), set_localStorage (Some (<[key := val]> m))
                    (log (StorageSet key val) w))
  | None => (Throw "SecurityError", log (StorageSet key val) w)
  end.

(** ** The script, function by function *)

(** The keys of [svgIcons] in the order of the object literal, each with the
    element its markup parses to. *)
Definition svgIcons : list (string * dnode) :=
  (fun key => (key, SvgIcon key)) <$>
  ["theme"; "expand"; "collapse"; "center"; "clear"; "png"; "json"; "play";
   "pause"; "stop"; "step"].

(** Characters that the HTML parser does not copy as they are into a text
    node: the tag opener, the character-reference opener, CR and NUL. *)
Definition plain_char (c : ascii) : bool :=
  let n := nat_of_ascii c in
  negb ((n =? 60)%nat || (n =? 38)%nat || (n =? 13)%nat || (n =? 0)%nat).

Fixpoint plain_text (s : string) : bool :=
  match s with
  | EmptyString => true
  | String c r => plain_char c && plain_text r
  end.

(** The child nodes after
    [innerHTML = `<span class="button-icon">${svg}</span> ${text}`].
    [text] is pasted into the markup unescaped; the parse is modelled for
    text made of plain characters only ([None] otherwise). *)
Definition iconMarkup (svg : dnode) (text : string) : option (list dnode) :=
  if plain_text text
  then Some [Span "button-icon" [svg]; Text (" " +:+ text)]
  else None.

(** One turn of the loop of [applyIcons]. *)
Definition applyIcon (w : World) (entry : string * dnode) : option World :=
  match getElementById ("btn-" +:+ entry.1) w with
  | Some button =>
      let originalText := trim (textContents (content button)) in
      match iconMarkup entry.2 originalText with
      | Some html =>
          Some (set_element ("btn-" +:+ entry.1) (set_content html button) w)
      | None => None
      end
  | None => Some w
  end.

Fixpoint forEach (entries : list (string * dnode)) (w : World)
  : option World :=
  match entries with
  | [] => Some w
  | e :: rest =>
      match applyIcon w e with
      | Some w' => forEach rest w'
      | None => None
      end
  end.

Definition applyIcons (w : World) : option World := forEach svgIcons w.

(** The label [updateThemeButton] writes. *)
Definition themeButtonLabel (isLight : bool) : list dnode :=
  let themeName := if isLight then "Dark" else "Light" in
  [Span "button-icon" [SvgIcon "theme"];
   Text (" Switch to " +:+ themeName +:+ " Theme")].

Definition updateThemeButton (isLight : bool) (w : World) : World :=
  match getElementById "theme-toggle-btn" w with
  | Some themeToggleButton =>
      set_element "theme-toggle-btn"
        (set_content (themeButtonLabel isLight) themeToggleButton) w
  | None => w
  end.

Definition storageWarning : string :=
  "localStorage not available for theme persistence".

Definition toggleTheme (w : World) : World :=
  let w1 :=
    set_body_classList
      (DOMTokenList.toggle "light-theme" (body_classList w)) w in
  let isLight := DOMTokenList.contains "light-theme" (body_classList w1) in
  let w2 :=
    match setItem "theme" (if isLight then "light" else "dark") w1 with
    | (Normal _, w') => w'
    | (Throw _, w') => log (ConsoleWarn storageWarning) w'
    end in
  updateThemeButton isLight w2.

(** [v || "dark"] for the result of [getItem]. *)
Definition or_dark (v : option string) : string :=
  match v with
  | Some s => if truthy s then s else "dark"
  | None => "dark"
  end.

(** The function that runs when the script is loaded: it applies the saved
    theme and registers the callback that labels the buttons. *)
Definition themeLoad (w : World) : World :=
  let '(savedTheme, w1) :=
    match getItem "theme" w with
    | (Normal v, w') => (or_dark v, w')
    | (Throw _, w') => ("dark", log (ConsoleWarn storageWarning) w')
    end in
  let isLight := bool_decide (savedTheme = "light") in
  let w2 :=
    if isLight
    then set_body_classList
           (DOMTokenList.add "light-theme" (body_classList w1)) w1
    else w1 in
  set_listeners (listeners w2 ++ [ThemeInit isLight]) w2.

Definition gearIcon : string := "⚙️".
Definition arrowIcon : string := "➡️".

Definition toggleInfoBox (w : World) : World :=
  match getElementById "info-box" w, getElementById "toggle-info-btn" w with
  | Some infoBox, Some toggleBtn =>
      let infoBox' :=
        set_classList (DOMTokenList.toggle "hidden" (classList infoBox))
          infoBox in
      let w1 := set_element "info-box" infoBox' w in
      if DOMTokenList.contains "hidden" (classList infoBox')
      then
        set_element "toggle-info-btn"
          (set_elem_title "Show Info Panel"
             (set_content [Text gearIcon]
                (set_classList
                   (DOMTokenList.remove "info-visible" (classList toggleBtn))
                   toggleBtn))) w1
      else
        set_element "toggle-info-btn"
          (set_elem_title "Hide Info Panel"
             (set_content [Text arrowIcon]
                (set_classList
                   (DOMTokenList.add "info-visible" (classList toggleBtn))
                   toggleBtn))) w1
  | _, _ => w
  end.

(** The callback registered at the end of the script. *)
Definition infoInit (w : World) : World :=
  match getElementById "info-box" w, getElementById "toggle-info-btn" w with
  | Some infoBox, Some toggleBtn =>
      let w1 :=
        set_element "info-box"
          (set_classList (DOMTokenList.add "hidden" (classList infoBox))
             infoBox) w in
      set_element "toggle-info-btn"
        (set_elem_title "Show Info Panel"
           (set_content [Text gearIcon]
              (set_classList
                 (DOMTokenList.remove "info-visible" (classList toggleBtn))
                 toggleBtn))) w1
  | _, _ => w
  end.

(** [network.canvas.frame] when [network], [network.canvas] and
    [network.canvas.frame] are all there, the test that opens [exportPNG]. *)
Definition canvasFrame (w : World) : option Frame :=
  match network w with
  | Some net =>
      match canvas net with
      | Some cv => frame cv
      | None => None
      end
  | None => None
  end.

Definition exportPNG (w : World) : completion unit * World :=
  match canvasFrame w with
  | None =>
      (Normal (),
       log (ConsoleError "Network canvas not available for PNG export") w)
  | Some fr =>
      match canvas_data fr with
      | Some url => (Normal (), log (Download "visualization.png" url) w)
      | None => (Throw "SecurityError", w)
      end
  end.

Definition hideNodeInfo (w : World) : World :=
  match getElementById "node-info" w with
  | Some nodeInfo => set_element "node-info" (set_display "none" nodeInfo) w
  | None => w
  end.

(** [nodes.update(us)] and [edges.update(us)] on the collections [ns], [es]
    that the globals hold. *)
Definition nodes_update (us : list Update) (ns : gmap Id Node) (w : World)
  : World :=
  set_nodes (Some (DataSet.update us ns)) (log (NodesUpdate us) w).

Definition edges_update (us : list Update) (es : gmap Id Edge) (w : World)
  : World :=
  set_edges (Some (DataSet.update us es)) (log (EdgesUpdate us) w).

Definition resetColors (w : World) : World :=
  match nodes w, edges w with
  | Some ns, Some es =>
      let nodeUpdates :=
        (fun id => {| upd_id := id; upd_color := nodeDefaultColor |})
          <$> DataSet.getIds ns in
      let w1 :=
        if (0 <? length nodeUpdates)%nat
        then nodes_update nodeUpdates ns w else w in
      let edgeUpdates :=
        (fun id => {| upd_id := id; upd_color := edgeDefaultColor |})
          <$> DataSet.getIds es in
      if (0 <? length edgeUpdates)%nat
      then edges_update edgeUpdates es w1 else w1
  | _, _ => w
  end.

Definition clearHighlights (w : World) : World :=
  let w1 := resetColors w in
  match getElementById "search-input" w1 with
  | Some searchInput =>
      set_element "search-input" (set_value "" searchInput) w1
  | None => w1
  end.

Definition clearSelection (w : World) : World :=
  match network w with
  | Some net =>
      hideNodeInfo (resetColors (set_network (Some (unselectAll net)) w))
  | None => w
  end.

(** [String(node.label)]: a missing label reads as the text "undefined". *)
Definition String_ (v : option string) : string :=
  match v with
  | Some s => s
  | None => "undefined"
  end.

(** The filter of [searchNodes]. *)
Definition search_filter (query : string) (node : Node) : bool :=
  includes (toLowerCase (String_ (label node))) (toLowerCase query) ||
  match title node with
  | Some t =>
      truthy t && includes (toLowerCase (String_ (Some t))) (toLowerCase query)
  | None => false
  end.

Definition searchNodes (query : string) (w : World) : World :=
  match nodes w with
  | None => w
  | Some _ =>
      let w1 := resetColors w in
      if negb (truthy (trim query)) then w1 else
      match nodes w1 with
      | Some ns =>
          let matchingNodes := DataSet.get_filter (search_filter query) ns in
          if (0 <? length matchingNodes)%nat
          then
            nodes_update
              ((fun node => {| upd_id := node.1;
                               upd_color := searchResultColor |})
                 <$> matchingNodes) ns w1
          else w1
      | None => w1
      end
  end.

(** ** Loading the page *)

(** Running the script from top to bottom: the theme loader, then the
    registration of the info-panel callback. *)
Definition loadScript (w : World) : World :=
  let w1 := themeLoad w in
  set_listeners (listeners w1 ++ [InfoInit]) w1.

Definition runListener (w : World) (l : Listener) : option World :=
  match l with
  | ThemeInit isLight => applyIcons (updateThemeButton isLight w)
  | InfoInit => Some (infoInit w)
  end.

(** The [DOMContentLoaded] event: the registered callbacks in order. *)
Fixpoint dispatch (ls : list Listener) (w : World) : option World :=
  match ls with
  | [] => Some w
  | l :: rest =>
      match runListener w l with
      | Some w' => dispatch rest w'
      | None => None
      end
  end.

Definition domContentLoaded (w : World) : option World :=
  dispatch (listeners w) w.

Definition pageLoad (w : World) : option World :=
  domContentLoaded (loadScript w).

(** ** A sample page *)

Definition element (text : string) : Element :=
  {| classList := []; content := [Text text]; elem_title := "";
     value := ""; display := "" |}.

Definition demoElems : gmap string Element :=
  list_to_map
    [("theme-toggle-btn", element "Theme");
     ("btn-play", element "  Play ");
     ("btn-png", element "Export PNG");
     ("info-box", element "Legend");
     ("toggle-info-btn", element "i");
     ("node-info", element "");
     ("search-input", element "")].

Definition demoNodes : gmap Id Node :=
  list_to_map
    [(IdNum 1, {| label := Some "Root"; title := None; node_color := None |});
     (IdNum 2, {| label := Some "left child"; title := Some "Value: ROOT-L";
                  node_color := Some (ColorStr "#bb9af7") |});
     (IdStr "n3", {| label := Some "leaf"; title := Some "";
                     node_color := Some searchResultColor |})].

Definition demoEdges : gmap Id Edge :=
  list_to_map
    [(IdNum 10, {| edge_color := None |});
     (IdNum 11, {| edge_color :=
                     Some (ColorObj [("color", colorPalette.edgeHighlighted)])
                |})].

Definition demoNetwork : Network :=
  {| canvas :=
       Some {| frame :=
                 Some {| canvas_data := Some "data:image/png;base64,AAAA" |}
            |};
     selection := [IdNum 2] |}.

(** A first visit: nothing stored yet. *)
Definition demoWorld : World :=
  {| body_classList := []; elems := demoElems; localStorage := Some ∅;
     network := Some demoNetwork; nodes := Some demoNodes;
     edges := Some demoEdges; listeners := []; trace := [] |}.

(** ** What the statements observe *)

(** The words of the specification for a search hit: the label, or the
    title when there is one, contains the query, case ignored. *)
Definition node_matches (query : string) (n : Node) : Prop :=
  contains_ignore_case (String_ (label n)) query
  \/ exists t, title n = Some t /\ contains_ignore_case t query.

(** The colour of the node, or of the edge, with a given id. *)
Definition node_color_of (i : Id) (w : World) : option jscolor :=
  match nodes w with
  | Some ns =>
      match ns !! i with
      | Some n => node_color n
      | None => None
      end
  | None => None
  end.

Definition edge_color_of (i : Id) (w : World) : option jscolor :=
  match edges w with
  | Some es =>
      match es !! i with
      | Some e => edge_color e
      | None => None
      end
  | None => None
  end.

(** Every node has the default node colour and every edge the default edge
    colour. *)
Definition all_default (w : World) : Prop :=
  (forall ns i n, nodes w = Some ns -> ns !! i = Some n ->
     node_color n = Some nodeDefaultColor)
  /\ (forall es i e, edges w = Some es -> es !! i = Some e ->
       edge_color e = Some edgeDefaultColor).

(** The calls [resetColors] makes on collections [ns] and [es]: one
    [update] per collection that is not empty. *)
Definition reset_calls (ns : gmap Id Node) (es : gmap Id Edge) : list Event :=
  (if decide (ns = ∅) then []
   else [NodesUpdate (recolor nodeDefaultColor (DataSet.getIds ns))]) ++
  (if decide (es = ∅) then []
   else [EdgesUpdate (recolor edgeDefaultColor (DataSet.getIds es))]).

(** The [update] call a search makes for the entries [us]: none when
    nothing matched. *)
Definition search_call (us : list Update) : list Event :=
  match us with
  | [] => []
  | _ => [NodesUpdate us]
  end.

(** What [resetColors] does to a node: the default colour when both
    collections are there, nothing otherwise. *)
Definition reset_node (w : World) : Node -> Node :=
  match edges w with
  | Some _ => with_color nodeDefaultColor
  | None => id
  end.

(** The entries of the [update] call of a search over the nodes [ns]. *)
Definition search_updates (query : string) (ns : gmap Id Node)
  : list Update :=
  (fun node : Id * Node =>
     {| upd_id := node.1; upd_color := searchResultColor |})
    <$> DataSet.get_filter (search_filter query) ns.

(** Every entry of an [update] call names a record that the collection of
    [w] holds. *)
Definition names_known_records (w : World) (e : Event) : Prop :=
  match e with
  | NodesUpdate us =>
      forall u, u ∈ us ->
        exists ns, nodes w = Some ns /\ is_Some (ns !! upd_id u)
  | EdgesUpdate us =>
      forall u, u ∈ us ->
        exists es, edges w = Some es /\ is_Some (es !! upd_id u)
  | _ => True
  end.

(** The ids of the records of the two collections. *)
Definition record_ids (w : World) : option (gset Id) * option (gset Id) :=
  (dom <$> nodes w, dom <$> edges w).

(** The keys of the [getItem] calls of a trace. *)
Definition storage_reads (t : list Event) : list string :=
  omap (fun e => match e with StorageGet k => Some k | _ => None end) t.

(** The theme as the page shows and stores it. *)
Definition isLightMode (w : World) : bool :=
  DOMTokenList.contains "light-theme" (body_classList w).

Definition modeName (isLight : bool) : string :=
  if isLight then "light" else "dark".

(** The value stored under the key "theme", if any. *)
Definition stored_theme (w : World) : option string :=
  match localStorage w with
  | Some m => m !! "theme"
  | None => None
  end.

Definition theme_label (w : World) : option (list dnode) :=
  content <$> getElementById "theme-toggle-btn" w.

(** The stored value and the label of the toggle button both reflect the
    mode the page is in, as they do after every call of [toggleTheme]. *)
Definition theme_in_sync (w : World) : Prop :=
  (forall m, localStorage w = Some m ->
     m !! "theme" = Some (modeName (isLightMode w)))
  /\ (forall b, getElementById "theme-toggle-btn" w = Some b ->
       content b = themeButtonLabel (isLightMode w)).

(** The info panel and its toggle button. *)
Definition panelHidden (w : World) : option bool :=
  (fun e => DOMTokenList.contains "hidden" (classList e))
    <$> getElementById "info-box" w.

Definition toggleIcon (w : World) : option (list dnode * string) :=
  (fun e => (content e, elem_title e)) <$> getElementById "toggle-info-btn" w.

(** The two states of the toggle button: its icon and its title, for a
    hidden and for a visible panel. *)
Definition infoButtonState (hidden : bool) : list dnode * string :=
  if hidden then ([Text gearIcon], "Show Info Panel")
  else ([Text arrowIcon], "Hide Info Panel").

(** The content [applyIcons] gives the button of an entry, from the text the
    button had. *)
Definition iconized (svg : dnode) (b : Element) : Element :=
  set_content
    [Span "button-icon" [svg];
     Text (" " +:+ trim (textContents (content b)))] b.

(** How often an icon occurs among nodes. *)
Fixpoint icon_count (n : dnode) : nat :=
  match n with
  | Text _ => 0
  | Span _ ch => foldr (fun x acc => icon_count x + acc) 0 ch
  | SvgIcon _ => 1
  end.

Definition icon_counts (l : list dnode) : nat :=
  foldr (fun x acc => icon_count x + acc) 0 l.

(** A page without edges: [edges] holds [undefined]. *)
Definition noEdgesWorld : World := set_edges None demoWorld.

(** The sample page once loaded. *)
Definition loadedWorld : World := default demoWorld (pageLoad demoWorld).

(** A page without the graph widget. *)
Definition noNetworkWorld : World := set_network None demoWorld.

(** A browser that denies access to the store. *)
Definition noStorageWorld : World := set_localStorage None demoWorld.

(** A canvas whose [toDataURL] raises. *)
Definition taintedWorld : World :=
  set_network
    (Some {| canvas := Some {| frame := Some {| canvas_data := None |} |};
             selection := [] |})
    demoWorld.

(** The sample page with its icons in place. *)
Definition iconsWorld : World := default demoWorld (applyIcons demoWorld).

(** ** The rest of the script: hover, blur and the JSON export *)

(** The argument of the hover handler: [params.node] is the id of the node
    under the pointer, when there is one. *)
Record HoverParams := {
  params_node : option Id;
}.

(** JavaScript truthiness of an id: the number 0 and the empty string are
    falsy. *)
Definition id_truthy (i : Id) : bool :=
  match i with
  | IdNum n => negb (n =? 0)%Z
  | IdStr s => truthy s
  end.

Definition newline : string := String (ascii_of_nat 10) EmptyString.

(** [nodeData.title || `Label: ${nodeData.label}`], followed by the hint. *)
Definition tooltipText (nodeData : Node) : string :=
  let shown :=
    match title nodeData with
    | Some t => if truthy t then t else "Label: " +:+ String_ (label nodeData)
    | None => "Label: " +:+ String_ (label nodeData)
    end in
  shown +:+ newline +:+ "Click for details".

Definition handleNodeHover (params : HoverParams) (w : World) : World :=
  match params_node params, nodes w with
  | Some nodeId, Some ns =>
      if id_truthy nodeId then
        match ns !! nodeId with
        | Some nodeData =>
            match getElementById "mynetwork" w with
            | Some networkElement =>
                set_element "mynetwork"
                  (set_elem_title (tooltipText nodeData) networkElement) w
            | None => w
            end
        | None => w
        end
      else w
  | _, _ => w
  end.

Definition handleNodeBlur (w : World) : World :=
  match getElementById "mynetwork" w with
  | Some networkElement =>
      set_element "mynetwork" (set_elem_title "" networkElement) w
  | None => w
  end.

(** A [Blob]: its text and its type. *)
Record Blob := {
  blob_text : string;
  blob_type : string;
}.

(** The world together with the object URLs that are alive, each with the
    blob it stands for, and the downloads that clicks on links have started:
    the file name, and the blob the address of the link stood for at the
    moment of the click (none when the address was not a live object
    URL). *)
Record Browser := {
  world : World;
  objectURLs : gmap string Blob;
  downloads : list (string * option Blob);
}.

Section exportJSON.

(** The data handed to [exportJSON] and the two services of the browser it
    relies on: [JSON.stringify(data, null, 2)], which raises on some data and
    gives [undefined] on other, and the choice of a new object URL. *)
Context {Data : Type}.
Context (JSON_stringify : Data -> completion (option string)).
Context (newURL : gmap string Blob -> string).

(** [URL.createObjectURL(blob)] *)
Definition createObjectURL (blob : Blob) (b : Browser) : string * Browser :=
  let url := newURL (objectURLs b) in
  (url, {| world := world b;
           objectURLs := <[url := blob]> (objectURLs b);
           downloads := downloads b |}).

(** [URL.revokeObjectURL(url)] *)
Definition revokeObjectURL (url : string) (b : Browser) : Browser :=
  {| world := world b;
     objectURLs := delete url (objectURLs b);
     downloads := downloads b |}.

(** [link.click()] on a link with the given [download] and [href]: the
    address is looked up among the live object URLs when the click is
    made. *)
Definition clickDownload (filename href : string) (b : Browser) : Browser :=
  {| world := log (Download filename href) (world b);
     objectURLs := objectURLs b;
     downloads := downloads b ++ [(filename, objectURLs b !! href)] |}.

(** [filename] is [None] when the caller leaves the argument out. *)
Definition exportJSON (dataToExport : Data) (filename : option string)
  (b : Browser) : completion unit * Browser :=
  match JSON_stringify dataToExport with
  | Throw e => (Throw e, b)
  | Normal text =>
      let blob :=
        {| blob_text := default "undefined" text;
           blob_type := "application/json" |} in
      let '(url, b1) := createObjectURL blob b in
      let b2 := clickDownload (default "data.json" filename) url b1 in
      (Normal (), revokeObjectURL url b2)
  end.

End exportJSON.


(** A page that shows the sample graph: the element the widget draws in. *)
Definition graphWorld : World :=
  set_elems (<["mynetwork" := element ""]> demoElems) demoWorld.

(** A node whose id is the number 0. *)
Definition zeroIdWorld : World :=
  set_nodes
    (Some (<[IdNum 0 := {| label := Some "head"; title := None;
                          node_color := None |}]> demoNodes))
    graphWorld.

(** The sample page reopened after one toggle of the theme: the page is
    fresh, the store is the one the toggle left. *)
Definition reopenedWorld : World :=
  set_localStorage (localStorage (toggleTheme loadedWorld)) demoWorld.

(** A stringifier and a URL supply for the examples: the data is its own
    text, and a new URL is one that is not alive. *)
Definition demoStringify (d : string) : completion (option string) :=
  Normal (Some d).

Definition demoNewURL (m : gmap string Blob) : string :=
  fresh (dom m).

Definition demoBrowser : Browser :=
  {| world := demoWorld; objectURLs := ∅; downloads := [] |}.

(** What a search does to a node when both collections are there: the
    search colour for a hit of a query that is not blank, the default colour
    otherwise. *)
Definition search_node (query : string) (n : Node) : Node :=
  with_color
    (if truthy (trim query) && search_filter query n
     then searchResultColor else nodeDefaultColor) n.

(** What a search does to a node when the edge collection is absent. *)
Definition search_node_no_edges (query : string) (n : Node) : Node :=
  if truthy (trim query) && search_filter query n
  then with_color searchResultColor n else n.

(** Everything of the world but the two collections and the trace. *)
Definition outside_collections (w : World) :=
  (body_classList w, elems w, localStorage w, network w, listeners w).

(** The label and the title of every node. *)
Definition node_texts (w : World)
  : option (gmap Id (option string * option string)) :=
  fmap (M := gmap Id) (fun n => (label n, title n)) <$> nodes w.

(** ** The search over the browser's own string functions *)

Section search_over.

(** [String.prototype.toLowerCase] and [String.prototype.trim] as the
    browser has them, on every string and not only on ASCII: the search is
    stated once for any two such functions. *)
Context (lower strip : string -> string).

(** The filter of [searchNodes]. *)
Definition search_filter_over (query : string) (node : Node) : bool :=
  includes (lower (String_ (label node))) (lower query) ||
  match title node with
  | Some t =>
      truthy t && includes (lower (String_ (Some t))) (lower query)
  | None => false
  end.

Definition searchNodesOver (query : string) (w : World) : World :=
  match nodes w with
  | None => w
  | Some _ =>
      let w1 := resetColors w in
      if negb (truthy (strip query)) then w1 else
      match nodes w1 with
      | Some ns =>
          let matchingNodes :=
            DataSet.get_filter (search_filter_over query) ns in
          if (0 <? length matchingNodes)%nat
          then
            nodes_update
              ((fun node => {| upd_id := node.1;
                               upd_color := searchResultColor |})
                 <$> matchingNodes) ns w1
          else w1
      | None => w1
      end
  end.

End search_over.

(** [q] occurs in [s] as a substring. *)
Definition occurs_in (q s : string) : Prop :=
  exists pre post, s = pre +:+ q +:+ post.

(** [s] contains [q] as a case-insensitive substring: [q] occurs in [s]
    once both are folded to lower case. *)
Definition contains_caseless (lower : string -> string) (s q : string)
  : Prop :=
  occurs_in (lower q) (lower s).

(** The words of the specification for a search hit, for any lower-casing:
    the label, or the title when there is one, contains the query as a
    case-insensitive substring. *)
Definition node_matches_over (lower : string -> string) (query : string)
  (n : Node) : Prop :=
  contains_caseless lower (String_ (label n)) query
  \/ exists t, title n = Some t /\ contains_caseless lower t query.

(** The shape of a search: whether the query passes the blank test, and
    the filter. *)
Definition searchWith (notBlank : bool) (f : Node -> bool) (w : World)
  : World :=
  match nodes w with
  | None => w
  | Some _ =>
      let w1 := resetColors w in
      if negb notBlank then w1 else
      match nodes w1 with
      | Some ns =>
          let matchingNodes := DataSet.get_filter f ns in
          if (0 <? length matchingNodes)%nat
          then
            nodes_update
              ((fun node => {| upd_id := node.1;
                               upd_color := searchResultColor |})
                 <$> matchingNodes) ns w1
          else w1
      | None => w1
      end
  end.

(** The entries of the [update] call of a search with filter [f]. *)
Definition updates_for (f : Node -> bool) (ns : gmap Id Node) : list Update :=
  (fun node : Id * Node =>
     {| upd_id := node.1; upd_color := searchResultColor |})
    <$> DataSet.get_filter f ns.

(** A filter that looks at the label and the title of a node only. *)
Definition texts_only (f : Node -> bool) : Prop :=
  forall n n', label n = label n' -> title n = title n' -> f n = f n'.

(** * Properties *)

(** ** Strings *)

Section string_facts.

Lemma lower_char_nat (c : ascii) :
  nat_of_ascii (lower_char c) =
  if is_upper c then (nat_of_ascii c + 32)%nat else nat_of_ascii c.
Proof.
  unfold lower_char. destruct (is_upper c) eqn:U; [|done].
  apply nat_ascii_embedding.
  unfold is_upper in U. apply andb_prop in U as [_ U%Nat.leb_le]. lia.
Qed.

Lemma is_upper_bounds (c : ascii) :
  is_upper c = true <-> (65 <= nat_of_ascii c <= 90)%nat.
Proof.
  unfold is_upper. rewrite andb_true_iff, !Nat.leb_le. done.
Qed.

Lemma nat_of_ascii_inj (a b : ascii) : nat_of_ascii a = nat_of_ascii b -> a = b.
Proof.
  intros E. rewrite <- (ascii_nat_embedding a), <- (ascii_nat_embedding b).
  by rewrite E.
Qed.

(** [toLowerCase] identifies exactly the characters that are the same letter
    up to case. *)
Lemma lower_char_eq_iff (a b : ascii) :
  lower_char a = lower_char b <-> same_letter a b.
Proof.
  unfold same_letter. split.
  - intros E. apply (f_equal nat_of_ascii) in E. rewrite !lower_char_nat in E.
    destruct (is_upper a) eqn:Ua, (is_upper b) eqn:Ub.
    + left. apply nat_of_ascii_inj. lia.
    + right; left. split; [done | lia].
    + right; right. split; [done | lia].
    + left. by apply nat_of_ascii_inj.
  - intros H. apply nat_of_ascii_inj. rewrite !lower_char_nat.
    destruct H as [-> | [[Ua E] | [Ub E]]]; [done | |].
    + rewrite Ua. destruct (is_upper b) eqn:Ub; [|lia].
      apply is_upper_bounds in Ua, Ub. lia.
    + rewrite Ub. destruct (is_upper a) eqn:Ua; [|lia].
      apply is_upper_bounds in Ua, Ub. lia.
Qed.

Lemma toLowerCase_eq_iff (s t : string) :
  toLowerCase s = toLowerCase t <-> eq_ignore_case s t.
Proof.
  split.
  - revert t. induction s as [|a s IH]; intros [|b t] E; simpl in E;
      try discriminate; [constructor|].
    injection E as E1 E2. constructor; [by apply lower_char_eq_iff | auto].
  - induction 1 as [|a b s t L _ IH]; [done|].
    simpl. f_equal; [by apply lower_char_eq_iff | done].
Qed.

Lemma toLowerCase_app (s t : string) :
  toLowerCase (s +:+ t) = toLowerCase s +:+ toLowerCase t.
Proof. induction s as [|a s IH]; simpl; [done | by rewrite IH]. Qed.

Lemma toLowerCase_split (s x y : string) :
  toLowerCase s = x +:+ y ->
  exists s1 s2, s = s1 +:+ s2 /\ toLowerCase s1 = x /\ toLowerCase s2 = y.
Proof.
  revert s. induction x as [|a x IH]; intros s E.
  - exists EmptyString, s. done.
  - destruct s as [|c s]; [discriminate|]. simpl in E. injection E as E1 E2.
    destruct (IH _ E2) as (s1 & s2 & -> & <- & <-).
    exists (String c s1), s2. simpl. by rewrite E1.
Qed.

Lemma startsWith_spec (s q : string) :
  startsWith s q = true <-> exists post, s = q +:+ post.
Proof.
  revert s. induction q as [|a q IH]; intros s.
  - destruct s; simpl; split; eauto.
  - destruct s as [|b s]; simpl.
    + split; [done | intros [post E]; discriminate].
    + rewrite andb_true_iff, IH. split.
      * intros [->%Ascii.eqb_eq [post ->]]. eauto.
      * intros [post E]. injection E as -> ->.
        split; [apply Ascii.eqb_refl | eauto].
Qed.

Lemma includes_spec (s q : string) :
  includes s q = true <-> exists pre post, s = pre +:+ q +:+ post.
Proof.
  induction s as [|b s IH].
  - cbn [includes]. rewrite orb_false_r, startsWith_spec. split.
    + intros [post E]. by exists EmptyString, post.
    + intros (pre & post & E). destruct pre; [eauto | discriminate].
  - cbn [includes]. rewrite orb_true_iff, IH, startsWith_spec. split.
    + intros [[post E] | (pre & post & E)].
      * by exists EmptyString, post.
      * exists (String b pre), post. simpl. by rewrite E.
    + intros (pre & post & E). destruct pre as [|c pre].
      * left. eauto.
      * right. injection E as -> ->. eauto.
Qed.

(** The test of [searchNodes], lower-casing both sides and looking for a
    substring, is containment with case ignored. *)
Lemma includes_toLowerCase_iff (s q : string) :
  includes (toLowerCase s) (toLowerCase q) = true <->
  contains_ignore_case s q.
Proof.
  rewrite includes_spec. unfold contains_ignore_case. split.
  - intros (x & y & E).
    apply toLowerCase_split in E as (pre & r & -> & _ & E).
    apply toLowerCase_split in E as (mid & post & -> & E & _).
    exists pre, mid, post. split; [done | by apply toLowerCase_eq_iff].
  - intros (pre & mid & post & -> & E%toLowerCase_eq_iff).
    exists (toLowerCase pre), (toLowerCase post).
    by rewrite !toLowerCase_app, E.
Qed.

Lemma trimStart_blank (s : string) : trimStart s = EmptyString <-> blank s.
Proof.
  induction s as [|c s IH]; simpl; [done|].
  destruct (is_ws c); [rewrite IH; tauto|].
  split; [done | intros [? _]; done].
Qed.

Lemma trimStart_not_ws (s : string) :
  match trimStart s with
  | EmptyString => True
  | String c _ => is_ws c = false
  end.
Proof.
  induction s as [|c s IH]; simpl; [done|].
  destruct (is_ws c) eqn:E; [done | by simpl].
Qed.

(** [query.trim()] is the empty string exactly for the queries that are
    empty or made of white space only. *)
Lemma trim_blank (s : string) : truthy (trim s) = false <-> blank s.
Proof.
  unfold trim. rewrite <- trimStart_blank.
  destruct (trimStart s) as [|c r] eqn:E; [done|].
  pose proof (trimStart_not_ws s) as W. rewrite E in W.
  simpl. destruct (trimEnd r); rewrite ?W; simpl; split; done.
Qed.

Lemma trimEnd_cons (c : ascii) (r : string) :
  trimEnd (String c r) =
  match trimEnd r with
  | EmptyString => if is_ws c then EmptyString else String c EmptyString
  | r' => String c r'
  end.
Proof. done. Qed.

Lemma trimEnd_idemp (s : string) : trimEnd (trimEnd s) = trimEnd s.
Proof.
  induction s as [|c s IH]; simpl; [done|].
  destruct (trimEnd s) as [|d r] eqn:E.
  - destruct (is_ws c) eqn:W; simpl; [done | by rewrite W].
  - by rewrite trimEnd_cons, IH.
Qed.

Lemma trimStart_trimEnd (s : string) :
  match s with
  | EmptyString => True
  | String c _ => is_ws c = false
  end ->
  trimStart (trimEnd s) = trimEnd s.
Proof.
  destruct s as [|c s]; [done|]. intros W. simpl.
  destruct (trimEnd s); rewrite ?W; simpl; by rewrite W.
Qed.

Lemma trim_idemp (s : string) : trim (trim s) = trim s.
Proof.
  unfold trim. rewrite trimStart_trimEnd by apply trimStart_not_ws.
  apply trimEnd_idemp.
Qed.

(** Reading back the text that [applyIcons] wrote after the icon. *)
Lemma trim_space_trim (s : string) : trim (" " +:+ trim s) = trim s.
Proof.
  change (trim (" " +:+ trim s)) with (trimEnd (trimStart (trim s))).
  apply trim_idemp.
Qed.

End string_facts.

(** ** Record collections *)

Section dataset_facts.
Context {A : Type} `{Item A}.
Implicit Types (ds : gmap Id A) (i : Id) (c : jscolor).

Lemma elem_of_getIds ds i : i ∈ DataSet.getIds ds <-> is_Some (ds !! i).
Proof.
  unfold DataSet.getIds. rewrite list_elem_of_fmap. split.
  - intros [[j a] [-> E%elem_of_map_to_list]]. eauto.
  - intros [a E]. exists (i, a). by rewrite elem_of_map_to_list.
Qed.

Lemma getIds_nil ds : DataSet.getIds ds = [] <-> ds = ∅.
Proof.
  unfold DataSet.getIds. rewrite <- map_to_list_empty_iff. split.
  - apply fmap_nil_inv.
  - by intros ->.
Qed.

Lemma elem_of_get_filter (f : A -> bool) ds i a :
  (i, a) ∈ DataSet.get_filter f ds <-> ds !! i = Some a /\ f a = true.
Proof.
  unfold DataSet.get_filter.
  rewrite list_elem_of_filter, elem_of_map_to_list. simpl. tauto.
Qed.

Lemma elem_of_get_filter_ids (f : A -> bool) ds i :
  i ∈ (DataSet.get_filter f ds).*1 <->
  exists a, ds !! i = Some a /\ f a = true.
Proof.
  rewrite list_elem_of_fmap. split.
  - intros [[j a] [-> E%elem_of_get_filter]]. eauto.
  - intros [a E%elem_of_get_filter]. by exists (i, a).
Qed.

Lemma update_cons (u : Update) (us : list Update) ds :
  DataSet.update (u :: us) ds = DataSet.update us (DataSet.update1 ds u).
Proof. done. Qed.

(** Recolouring records of the collection: the named records get the colour,
    the others stay as they are. *)
Lemma update_recolor_lookup c (ids : list Id) ds i :
  (forall j, j ∈ ids -> is_Some (ds !! j)) ->
  DataSet.update (recolor c ids) ds !! i =
  if decide (i ∈ ids) then with_color c <$> ds !! i else ds !! i.
Proof.
  revert ds. induction ids as [|j ids IH]; intros ds Hin.
  - done.
  - unfold recolor. rewrite fmap_cons, update_cons. fold (recolor c ids).
    destruct (Hin j) as [a Ea]; [left|].
    unfold DataSet.update1. simpl. rewrite Ea.
    rewrite IH.
    + destruct (decide (i = j)) as [->|Hne].
      * rewrite lookup_insert_eq, Ea.
        rewrite (decide_True (P := j ∈ j :: ids)) by left. simpl.
        case_decide; simpl; [by rewrite with_color_with_color | done].
      * rewrite lookup_insert_ne by done.
        destruct (decide (i ∈ ids)) as [Hi|Hi].
        -- by rewrite (decide_True (P := i ∈ j :: ids)) by (by right).
        -- rewrite (decide_False (P := i ∈ j :: ids)); [done|].
           intros [?|?]%elem_of_cons; done.
    + intros k Hk. destruct (decide (k = j)) as [->|Hne].
      * rewrite lookup_insert_eq. eauto.
      * rewrite lookup_insert_ne by done. apply Hin. by right.
Qed.

(** Recolouring every record, as [resetColors] does. *)
Lemma update_recolor_all c ds :
  DataSet.update (recolor c (DataSet.getIds ds)) ds = with_color c <$> ds.
Proof.
  apply map_eq. intros i.
  rewrite update_recolor_lookup by (intros j; apply elem_of_getIds).
  rewrite lookup_fmap. case_decide as Hi; [done|].
  rewrite elem_of_getIds, <- not_eq_None_Some in Hi.
  apply dec_stable in Hi. by rewrite Hi.
Qed.

(** Recolouring the records that pass a filter, as [searchNodes] does. *)
Lemma update_recolor_filter c (f : A -> bool) ds i :
  DataSet.update (recolor c (DataSet.get_filter f ds).*1) ds !! i =
  (fun a => if f a then with_color c a else a) <$> ds !! i.
Proof.
  rewrite update_recolor_lookup.
  - case_decide as Hi.
    + apply elem_of_get_filter_ids in Hi as (a & -> & Hf). simpl.
      by rewrite Hf.
    + destruct (ds !! i) as [a|] eqn:Ea; [|done]. simpl.
      destruct (f a) eqn:Hf; [|done].
      destruct Hi. apply elem_of_get_filter_ids. eauto.
  - intros j (a & -> & _)%elem_of_get_filter_ids. eauto.
Qed.

End dataset_facts.

(** ** Resetting the colours *)

Section reset_facts.
Implicit Types (w : World) (ns : gmap Id Node) (es : gmap Id Edge).

Lemma getIds_length_pos {A} (ds : gmap Id A) :
  (0 <? length (DataSet.getIds ds))%nat = if decide (ds = ∅) then false else true.
Proof.
  case_decide as E.
  - apply getIds_nil in E. by rewrite E.
  - destruct (DataSet.getIds ds) eqn:G; [|done].
    by apply getIds_nil in G.
Qed.

(** What one call does when both collections are there. *)
Lemma resetColors_present w ns es :
  nodes w = Some ns -> edges w = Some es ->
  resetColors w =
  set_edges (Some (with_color edgeDefaultColor <$> es))
    (set_nodes (Some (with_color nodeDefaultColor <$> ns))
       (set_trace (trace w ++ reset_calls ns es) w)).
Proof.
  intros Hn He. unfold resetColors, reset_calls. rewrite Hn, He.
  rewrite !length_fmap, !getIds_length_pos.
  unfold nodes_update, edges_update, log.
  fold (recolor nodeDefaultColor (DataSet.getIds ns)).
  fold (recolor edgeDefaultColor (DataSet.getIds es)).
  rewrite !update_recolor_all.
  destruct w; simpl in *; subst.
  unfold set_edges, set_nodes, set_trace; simpl.
  do 2 case_decide; subst; simpl;
    rewrite ?fmap_empty, ?app_nil_r, <- ?app_assoc; reflexivity.
Qed.

Lemma resetColors_absent w :
  nodes w = None \/ edges w = None -> resetColors w = w.
Proof.
  unfold resetColors. intros [E|E]; rewrite E; [done|].
  by destruct (nodes w).
Qed.

Lemma item_color_fmap_idemp {A} `{Item A} (c : jscolor) (ds : gmap Id A) :
  with_color c <$> (with_color c <$> ds) = with_color c <$> ds.
Proof.
  rewrite <- map_fmap_compose. apply map_fmap_ext. intros i a _. simpl.
  apply with_color_with_color.
Qed.

Lemma resetColors_colours_iter w (k : nat) :
  nodes (Nat.iter k resetColors (resetColors w)) = nodes (resetColors w)
  /\ edges (Nat.iter k resetColors (resetColors w)) = edges (resetColors w).
Proof.
  induction k as [|k [IHn IHe]]; [done|].
  change (Nat.iter (S k) resetColors (resetColors w))
    with (resetColors (Nat.iter k resetColors (resetColors w))).
  revert IHn IHe. generalize (Nat.iter k resetColors (resetColors w)).
  intros v IHn IHe.
  destruct (nodes w) as [ns|] eqn:Hn, (edges w) as [es|] eqn:He.
  2-4: rewrite (resetColors_absent w) in * by auto;
       rewrite (resetColors_absent v); [done | rewrite IHn, IHe; auto].
  rewrite (resetColors_present w ns es) in * by done.
  cbn [nodes edges set_edges set_nodes set_trace] in *.
  rewrite (resetColors_present v _ _ IHn IHe).
  cbn [nodes edges set_edges set_nodes set_trace].
  by rewrite !item_color_fmap_idemp.
Qed.

End reset_facts.

(** C6. [resetColors] is idempotent on the colour state: after one call, any
    number of further calls leaves the records of both collections as that
    one call left them.  With both collections there, one call gives every
    node the default node colour and every edge the default edge colour and
    keeps everything else of the records; the calls it makes are one [update]
    per collection that is not empty, so an empty collection gets no call.
    With either collection absent the call changes nothing at all. *)
Theorem resetColors_idempotent (w : World) (k : nat) :
  (nodes (Nat.iter k resetColors (resetColors w)) = nodes (resetColors w)
   /\ edges (Nat.iter k resetColors (resetColors w)) = edges (resetColors w))
  /\ (forall ns es, nodes w = Some ns -> edges w = Some es ->
        nodes (resetColors w) = Some (with_color nodeDefaultColor <$> ns)
        /\ edges (resetColors w) = Some (with_color edgeDefaultColor <$> es)
        /\ all_default (resetColors w)
        /\ trace (resetColors w) = trace w ++ reset_calls ns es
        /\ (ns = ∅ -> forall us, NodesUpdate us ∉ reset_calls ns es)
        /\ (es = ∅ -> forall us, EdgesUpdate us ∉ reset_calls ns es))
  /\ (nodes w = None \/ edges w = None -> resetColors w = w).
Proof.
  split; [apply resetColors_colours_iter|].
  split; [|apply resetColors_absent].
  intros ns es Hn He. rewrite (resetColors_present w ns es) by done.
  simpl. split; [done|]. split; [done|]. split; [|split; [done|split]].
  - split.
    + intros ns' i n [= <-]. rewrite lookup_fmap.
      destruct (ns !! i); simpl; [|done]. by intros [= <-].
    + intros es' i e [= <-]. rewrite lookup_fmap.
      destruct (es !! i); simpl; [|done]. by intros [= <-].
  - intros -> us. unfold reset_calls.
    rewrite (decide_True (P := (∅ : gmap Id Node) = ∅)) by done.
    rewrite app_nil_l. case_decide; [apply not_elem_of_nil|].
    intros [?|?%elem_of_nil]%elem_of_cons; done.
  - intros -> us. unfold reset_calls.
    rewrite (decide_True (P := (∅ : gmap Id Edge) = ∅)) by done.
    rewrite app_nil_r. case_decide; [apply not_elem_of_nil|].
    intros [?|?%elem_of_nil]%elem_of_cons; done.
Qed.

(** ** Searching *)

Section search_facts.
Implicit Types (w : World) (ns : gmap Id Node) (query : string).

Lemma blank_nonempty query : ~ blank query -> query <> EmptyString.
Proof. intros B ->. by apply B. Qed.

Lemma contains_ignore_case_empty query :
  query <> EmptyString -> ~ contains_ignore_case EmptyString query.
Proof.
  intros Q (pre & mid & post & E & C).
  destruct pre; [|discriminate]. destruct mid; [|discriminate].
  by inversion C.
Qed.

(** The filter of [searchNodes] decides the words of the specification. *)
Lemma search_filter_spec query (n : Node) :
  query <> EmptyString ->
  search_filter query n = true <-> node_matches query n.
Proof.
  intros Q. unfold search_filter, node_matches.
  rewrite orb_true_iff, includes_toLowerCase_iff.
  apply or_iff_compat_l. destruct (title n) as [t|]; simpl.
  - rewrite andb_true_iff, includes_toLowerCase_iff. split.
    + intros [_ C]. eauto.
    + intros (? & [= <-] & C). split; [|done].
      destruct t; [|done]. by apply contains_ignore_case_empty in C.
  - split; [done | by intros (? & ? & _)].
Qed.

Lemma nodes_resetColors w ns :
  nodes w = Some ns -> nodes (resetColors w) = Some (reset_node w <$> ns).
Proof.
  intros Hn. unfold reset_node. destruct (edges w) as [es|] eqn:He.
  - by rewrite (resetColors_present w ns es).
  - rewrite resetColors_absent by auto. by rewrite map_fmap_id.
Qed.

Lemma search_filter_reset_node w query (n : Node) :
  search_filter query (reset_node w n) = search_filter query n.
Proof. unfold reset_node. by destruct (edges w). Qed.

Lemma with_color_reset_node w (c : jscolor) (n : Node) :
  with_color c (reset_node w n) = with_color c n.
Proof. unfold reset_node. by destruct (edges w). Qed.

Lemma elem_of_recolor (c : jscolor) (ids : list Id) (u : Update) :
  u ∈ recolor c ids <-> upd_color u = c /\ upd_id u ∈ ids.
Proof.
  unfold recolor. rewrite list_elem_of_fmap. split.
  - by intros (i & -> & Hi).
  - intros [<- Hi]. exists (upd_id u). by destruct u.
Qed.

Lemma search_updates_recolor query ns :
  search_updates query ns =
  recolor searchResultColor (DataSet.get_filter (search_filter query) ns).*1.
Proof. unfold search_updates, recolor. by rewrite <- list_fmap_compose. Qed.

(** A search with a query that is not blank: the reset, then one [update]
    for the matching nodes if there are any. *)
Lemma searchNodes_not_blank query w ns :
  ~ blank query -> nodes w = Some ns ->
  let ns1 := reset_node w <$> ns in
  let us := search_updates query ns1 in
  searchNodes query w =
  set_nodes (Some (DataSet.update us ns1))
    (set_trace (trace (resetColors w) ++ search_call us) (resetColors w)).
Proof.
  intros B Hn ns1 us. unfold searchNodes. rewrite Hn.
  destruct (truthy (trim query)) eqn:T;
    [|by apply trim_blank in T]. simpl.
  pose proof (nodes_resetColors w ns Hn) as Hn1. fold ns1 in Hn1.
  rewrite Hn1. fold (search_updates query ns1). fold us.
  rewrite <- (length_fmap
    (fun node : Id * Node =>
       {| upd_id := node.1; upd_color := searchResultColor |})).
  fold (search_updates query ns1). fold us.
  destruct us as [|u us'] eqn:E; simpl.
  - rewrite app_nil_r. destruct (resetColors w); simpl in *. by subst.
  - reflexivity.
Qed.

Lemma searchNodes_blank query w :
  blank query -> searchNodes query w = resetColors w.
Proof.
  intros B%trim_blank. unfold searchNodes. rewrite B. simpl.
  destruct (nodes w) eqn:Hn; [done|]. by rewrite resetColors_absent by auto.
Qed.

Lemma search_update_lookup query w ns (i : Id) :
  DataSet.update (search_updates query (reset_node w <$> ns))
    (reset_node w <$> ns) !! i =
  (fun n => if search_filter query n
            then with_color searchResultColor n else reset_node w n)
    <$> ns !! i.
Proof.
  rewrite search_updates_recolor, update_recolor_filter, lookup_fmap.
  destruct (ns !! i) as [n|]; [|done]. cbn [fmap option_fmap option_map].
  by rewrite search_filter_reset_node, with_color_reset_node.
Qed.

Lemma elem_of_search_updates query w ns (u : Update) :
  u ∈ search_updates query (reset_node w <$> ns) <->
  upd_color u = searchResultColor
  /\ exists n, ns !! upd_id u = Some n /\ search_filter query n = true.
Proof.
  rewrite search_updates_recolor, elem_of_recolor.
  apply and_iff_compat_l. rewrite elem_of_get_filter_ids.
  setoid_rewrite lookup_fmap. split.
  - intros (a & E & F). destruct (ns !! upd_id u) as [n|]; [|done].
    injection E as <-. rewrite search_filter_reset_node in F. eauto.
  - intros (n & E & F). exists (reset_node w n). rewrite E. split; [done|].
    by rewrite search_filter_reset_node.
Qed.

Lemma search_update_dom query w ns :
  dom (DataSet.update (search_updates query (reset_node w <$> ns))
         (reset_node w <$> ns)) = dom ns.
Proof.
  apply set_eq. intros i.
  by rewrite !elem_of_dom, search_update_lookup, fmap_is_Some.
Qed.

End search_facts.


Section search_over_facts.
Context (lower strip : string -> string).
Implicit Types (w : World) (ns : gmap Id Node) (query : string) (n : Node)
  (f : Node -> bool).

Lemma searchNodesOver_searchWith query w :
  searchNodesOver lower strip query w
  = searchWith (truthy (strip query)) (search_filter_over lower query) w.
Proof. done. Qed.

(** On ASCII strings, with the two functions of the model, this is
    [searchNodes]. *)
Lemma searchNodes_searchNodesOver query w :
  searchNodes query w = searchNodesOver toLowerCase trim query w.
Proof. done. Qed.

Lemma search_filter_over_texts query :
  texts_only (search_filter_over lower query).
Proof.
  intros n n' L T. unfold search_filter_over. by rewrite L, T.
Qed.

Lemma texts_only_reset_node f w n :
  texts_only f -> f (reset_node w n) = f n.
Proof. intros F. apply F; unfold reset_node; by destruct (edges w). Qed.

Lemma updates_for_recolor f ns :
  updates_for f ns
  = recolor searchResultColor (DataSet.get_filter f ns).*1.
Proof. unfold updates_for, recolor. by rewrite <- list_fmap_compose. Qed.

Lemma searchWith_absent (b : bool) f w :
  nodes w = None -> searchWith b f w = w.
Proof. intros E. unfold searchWith. by rewrite E. Qed.

Lemma searchWith_blank f w : searchWith false f w = resetColors w.
Proof.
  unfold searchWith. simpl.
  destruct (nodes w) eqn:Hn; [done|]. by rewrite resetColors_absent by auto.
Qed.

(** A search whose query passes the blank test: the reset, then one
    [update] for the nodes the filter accepts, if there are any. *)
Lemma searchWith_not_blank f w ns :
  nodes w = Some ns ->
  searchWith true f w =
  set_nodes
    (Some (DataSet.update (updates_for f (reset_node w <$> ns))
             (reset_node w <$> ns)))
    (set_trace
       (trace (resetColors w)
        ++ search_call (updates_for f (reset_node w <$> ns)))
       (resetColors w)).
Proof.
  intros Hn. unfold searchWith. rewrite Hn. simpl.
  rewrite (nodes_resetColors w ns Hn).
  fold (updates_for f (reset_node w <$> ns)).
  rewrite <- (length_fmap
    (fun node : Id * Node =>
       {| upd_id := node.1; upd_color := searchResultColor |})).
  fold (updates_for f (reset_node w <$> ns)).
  pose proof (nodes_resetColors w ns Hn) as Hn1.
  destruct (updates_for f (reset_node w <$> ns)) as [|u us] eqn:E; simpl.
  - rewrite app_nil_r. destruct (resetColors w); simpl in *. by subst.
  - reflexivity.
Qed.

Lemma updates_for_lookup f w ns (i : Id) :
  texts_only f ->
  DataSet.update (updates_for f (reset_node w <$> ns))
    (reset_node w <$> ns) !! i =
  (fun n => if f n then with_color searchResultColor n else reset_node w n)
    <$> ns !! i.
Proof.
  intros F. rewrite updates_for_recolor, update_recolor_filter, lookup_fmap.
  destruct (ns !! i) as [n|]; [|done]. cbn [fmap option_fmap option_map].
  by rewrite (texts_only_reset_node f w n F), with_color_reset_node.
Qed.

Lemma elem_of_updates_for f w ns (u : Update) :
  texts_only f ->
  u ∈ updates_for f (reset_node w <$> ns) <->
  upd_color u = searchResultColor
  /\ exists n, ns !! upd_id u = Some n /\ f n = true.
Proof.
  intros F. rewrite updates_for_recolor, elem_of_recolor.
  apply and_iff_compat_l. rewrite elem_of_get_filter_ids.
  setoid_rewrite lookup_fmap. split.
  - intros (a & E & Fa). destruct (ns !! upd_id u) as [n|]; [|done].
    injection E as <-. rewrite (texts_only_reset_node f w n F) in Fa. eauto.
  - intros (n & E & Fn). exists (reset_node w n). rewrite E. split; [done|].
    by rewrite (texts_only_reset_node f w n F).
Qed.


(** The nodes and the edges after a search. *)
Lemma nodes_searchWith (b : bool) f w ns :
  texts_only f -> nodes w = Some ns ->
  nodes (searchWith b f w) =
  Some ((fun n => if b && f n
                  then with_color searchResultColor n else reset_node w n)
          <$> ns).
Proof.
  intros F Hn. destruct b.
  - rewrite (searchWith_not_blank f w ns Hn). cbn [nodes set_nodes].
    f_equal. apply map_eq. intros i.
    by rewrite (updates_for_lookup f w ns i F), lookup_fmap.
  - rewrite searchWith_blank. by rewrite (nodes_resetColors w ns Hn).
Qed.

Lemma edges_searchWith (b : bool) f w :
  edges (searchWith b f w) = edges (resetColors w).
Proof.
  destruct (nodes w) as [ns|] eqn:Hn.
  - destruct b.
    + by rewrite (searchWith_not_blank f w ns Hn).
    + by rewrite searchWith_blank.
  - rewrite searchWith_absent, resetColors_absent by auto. done.
Qed.

Lemma includes_occurs (s q : string) :
  includes s q = true <-> occurs_in q s.
Proof. apply includes_spec. Qed.

Lemma occurs_in_empty (q : string) :
  q <> EmptyString -> ~ occurs_in q EmptyString.
Proof.
  intros Q (pre & post & E). destruct pre; [|discriminate].
  destruct q; [done | discriminate].
Qed.

(** What the filter accepts is a hit in the words of the specification. *)
Lemma search_filter_over_sound query n :
  search_filter_over lower query n = true -> node_matches_over lower query n.
Proof.
  unfold search_filter_over, node_matches_over, contains_caseless.
  rewrite orb_true_iff, includes_occurs. intros [H | H]; [by left|].
  right. destruct (title n) as [t|]; [|done].
  apply andb_prop in H as [_ H%includes_occurs]. eauto.
Qed.

(** And the other way round, for a query that is not empty, as soon as
    lower-casing keeps the empty string and only the empty string empty. *)
Lemma search_filter_over_complete query n :
  lower EmptyString = EmptyString ->
  (forall s, lower s = EmptyString -> s = EmptyString) ->
  query <> EmptyString ->
  node_matches_over lower query n -> search_filter_over lower query n = true.
Proof.
  intros L0 L1 Q. unfold search_filter_over, node_matches_over,
    contains_caseless.
  rewrite orb_true_iff, includes_occurs. intros [H | (t & -> & H)]; [by left|].
  right. simpl. rewrite andb_true_iff, includes_occurs. split; [|done].
  destruct t; [|done]. rewrite L0 in H.
  apply occurs_in_empty in H; [done|]. intros E. by apply Q, L1.
Qed.

(** On ASCII strings a case-insensitive substring is one that agrees letter
    by letter up to case. *)
Lemma contains_caseless_toLowerCase (s q : string) :
  contains_caseless toLowerCase s q <-> contains_ignore_case s q.
Proof.
  unfold contains_caseless. rewrite <- includes_occurs.
  apply includes_toLowerCase_iff.
Qed.

End search_over_facts.



(** On the sample page "ROOT" finds the node labelled "Root" and the node
    whose title holds "ROOT-L", and the node that was highlighted before
    falls back to the default colour. *)
Example searchNodes_demo :
  node_color_of (IdNum 1) (searchNodes "ROOT" demoWorld)
  = Some searchResultColor
  /\ node_color_of (IdNum 2) (searchNodes "ROOT" demoWorld)
     = Some searchResultColor
  /\ node_color_of (IdStr "n3") (searchNodes "ROOT" demoWorld)
     = Some nodeDefaultColor.
Proof. vm_compute. repeat split. Qed.

(** The sample page without edges: a blank query leaves the highlighted
    node "n3" highlighted, and node 1 without any colour. *)
Example searchNodes_blank_no_edges :
  searchNodes "  " noEdgesWorld = noEdgesWorld.
Proof. reflexivity. Qed.

(** C2, as stated, fails where the guard of [resetColors] applies: with the
    edge collection absent a blank query resets nothing, so the nodes keep
    the colours they had. *)
Lemma searchNodes_blank_not_all_default :
  blank "  " /\ ~ all_default (searchNodes "  " noEdgesWorld).
Proof.
  split; [done|]. rewrite searchNodes_blank_no_edges. intros [Hn _].
  specialize (Hn demoNodes (IdStr "n3")
    {| label := Some "leaf"; title := Some "";
       node_color := Some searchResultColor |} eq_refl eq_refl).
  discriminate Hn.
Qed.

(** C2, amended. For every query that is empty or white space only: when
    both collections are present, [searchNodes] leaves every node with the
    default node colour and every edge with the default edge colour, and the
    only calls it makes are those of the reset; when either collection is
    absent it changes nothing. *)
Theorem searchNodes_blank_resets (query : string) (w : World) :
  blank query ->
  (forall ns es, nodes w = Some ns -> edges w = Some es ->
     nodes (searchNodes query w) = Some (with_color nodeDefaultColor <$> ns)
     /\ edges (searchNodes query w)
        = Some (with_color edgeDefaultColor <$> es)
     /\ all_default (searchNodes query w)
     /\ trace (searchNodes query w) = trace w ++ reset_calls ns es)
  /\ (nodes w = None \/ edges w = None -> searchNodes query w = w).
Proof.
  intros B. rewrite (searchNodes_blank query w B).
  split; [|apply resetColors_absent].
  intros ns es Hn He. rewrite (resetColors_present w ns es) by done.
  simpl. split; [done|]. split; [done|]. split; [|done]. split.
  - intros ns' i n [= <-]. rewrite lookup_fmap.
    destruct (ns !! i); simpl; [|done]. by intros [= <-].
  - intros es' i e [= <-]. rewrite lookup_fmap.
    destruct (es !! i); simpl; [|done]. by intros [= <-].
Qed.

Lemma searchNodes_blank_resets_witness :
  (forall ns es, nodes demoWorld = Some ns -> edges demoWorld = Some es ->
     nodes (searchNodes "  " demoWorld)
     = Some (with_color nodeDefaultColor <$> ns)
     /\ edges (searchNodes "  " demoWorld)
        = Some (with_color edgeDefaultColor <$> es)
     /\ all_default (searchNodes "  " demoWorld)
     /\ trace (searchNodes "  " demoWorld)
        = trace demoWorld ++ reset_calls ns es)
  /\ (nodes demoWorld = None \/ edges demoWorld = None ->
      searchNodes "  " demoWorld = demoWorld).
Proof.
  apply (searchNodes_blank_resets "  " demoWorld). simpl. done.
Defined.

(** ** Updates and the identity of records *)

Section identity_facts.
Implicit Types (w : World) (query : string).

Lemma record_ids_resetColors w : record_ids (resetColors w) = record_ids w.
Proof.
  destruct (nodes w) as [ns|] eqn:Hn, (edges w) as [es|] eqn:He;
    [|by rewrite resetColors_absent by auto ..].
  unfold record_ids. rewrite (resetColors_present w ns es), Hn, He by done.
  simpl. by rewrite !dom_fmap_L.
Qed.

Lemma resetColors_calls_known w :
  exists evs,
    trace (resetColors w) = trace w ++ evs
    /\ Forall (names_known_records w) evs.
Proof.
  destruct (nodes w) as [ns|] eqn:Hn, (edges w) as [es|] eqn:He.
  2-4: exists []; rewrite resetColors_absent by auto;
       by rewrite app_nil_r.
  exists (reset_calls ns es). rewrite (resetColors_present w ns es) by done.
  split; [done|]. unfold reset_calls. apply Forall_app.
  split; case_decide; constructor; try constructor; simpl.
  - intros u [_ Hu]%elem_of_recolor. exists ns. split; [done|].
    by apply elem_of_getIds.
  - intros u [_ Hu]%elem_of_recolor. exists es. split; [done|].
    by apply elem_of_getIds.
Qed.

Lemma searchNodes_calls_known query w :
  exists evs,
    trace (searchNodes query w) = trace w ++ evs
    /\ Forall (names_known_records w) evs.
Proof.
  destruct (truthy (trim query)) eqn:T.
  - destruct (nodes w) as [ns|] eqn:Hn.
    + assert (~ blank query) as B by (rewrite <- trim_blank; congruence).
      destruct (resetColors_calls_known w) as (evs & E & F).
      exists (evs ++ search_call (search_updates query (reset_node w <$> ns))).
      rewrite (searchNodes_not_blank query w ns B Hn).
      cbn [trace set_nodes set_trace]. rewrite E, app_assoc.
      split; [done|]. apply Forall_app. split; [done|].
      destruct (search_updates query (reset_node w <$> ns)) as [|u0 us] eqn:U;
        [constructor|].
      constructor; [|constructor]. simpl. intros u Hu.
      rewrite <- U in Hu.
      apply elem_of_search_updates in Hu as (_ & n & En & _).
      exists ns. eauto.
    + exists []. unfold searchNodes. rewrite Hn. by rewrite app_nil_r.
  - rewrite searchNodes_blank by (by apply trim_blank).
    apply resetColors_calls_known.
Qed.

Lemma record_ids_searchNodes query w :
  record_ids (searchNodes query w) = record_ids w.
Proof.
  destruct (truthy (trim query)) eqn:T.
  - destruct (nodes w) as [ns|] eqn:Hn.
    + assert (~ blank query) as B by (rewrite <- trim_blank; congruence).
      rewrite <- (record_ids_resetColors w).
      rewrite (searchNodes_not_blank query w ns B Hn).
      unfold record_ids. cbn [nodes edges set_nodes set_trace].
      rewrite (nodes_resetColors w ns Hn). simpl.
      by rewrite search_update_dom, dom_fmap_L.
    + unfold searchNodes. by rewrite Hn.
  - rewrite searchNodes_blank by (by apply trim_blank).
    apply record_ids_resetColors.
Qed.

End identity_facts.

(** C9. Every colour update of [resetColors] and of [searchNodes] keeps the
    identity of the records: each entry of each [update] call they make
    carries the id of a record the collection already holds, and the call
    leaves both collections with the ids they had, so no record is ever
    created. *)
Theorem color_updates_preserve_identity (query : string) (w : World) :
  (exists evs,
     trace (resetColors w) = trace w ++ evs
     /\ Forall (names_known_records w) evs)
  /\ record_ids (resetColors w) = record_ids w
  /\ (exists evs,
        trace (searchNodes query w) = trace w ++ evs
        /\ Forall (names_known_records w) evs)
  /\ record_ids (searchNodes query w) = record_ids w.
Proof.
  split; [apply resetColors_calls_known|].
  split; [apply record_ids_resetColors|].
  split; [apply searchNodes_calls_known | apply record_ids_searchNodes].
Qed.

(** What the invariant rules out: an entry for an id the collection does
    not hold makes [update] add a record. *)
Example update_unknown_id_adds_record :
  demoNodes !! IdNum 99 = None
  /\ DataSet.update
       [{| upd_id := IdNum 99; upd_color := nodeDefaultColor |}] demoNodes
     !! IdNum 99
     = Some {| label := None; title := None;
               node_color := Some nodeDefaultColor |}.
Proof. vm_compute. repeat split. Qed.

(** ** Export and selection without the rendering engine *)

(** C3. With the rendering engine handle absent, or its canvas, or the frame
    of its canvas, [exportPNG] returns normally (nothing is raised), triggers
    no download, and the world after the call is the world before it with
    one more entry in the trace: the logged error. *)
Theorem exportPNG_without_canvas (w : World) :
  network w = None
  \/ (exists net, network w = Some net /\ canvas net = None)
  \/ (exists net cv,
        network w = Some net /\ canvas net = Some cv /\ frame cv = None) ->
  exportPNG w =
  (Normal (),
   log (ConsoleError "Network canvas not available for PNG export") w).
Proof.
  intros H. unfold exportPNG, canvasFrame.
  destruct H as [-> | [(net & -> & ->) | (net & cv & -> & -> & ->)]]; done.
Qed.

Lemma exportPNG_without_canvas_witness :
  exportPNG noNetworkWorld =
  (Normal (),
   log (ConsoleError "Network canvas not available for PNG export")
     noNetworkWorld).
Proof. apply (exportPNG_without_canvas noNetworkWorld). by left. Defined.

(** By contrast, with a canvas the call downloads the image, and it raises
    when the canvas refuses to encode. *)
Example exportPNG_demo :
  exportPNG demoWorld =
  (Normal (),
   log (Download "visualization.png" "data:image/png;base64,AAAA") demoWorld).
Proof. reflexivity. Qed.

Example exportPNG_tainted :
  exportPNG taintedWorld = (Throw "SecurityError", taintedWorld).
Proof. reflexivity. Qed.

(** C10. With the rendering engine handle absent, [clearSelection] changes
    nothing: no selection is cleared, no colour is reset, the node-info
    panel is not hidden. *)
Theorem clearSelection_without_network (w : World) :
  network w = None -> clearSelection w = w.
Proof. intros E. unfold clearSelection. by rewrite E. Qed.

Lemma clearSelection_without_network_witness :
  clearSelection noNetworkWorld = noNetworkWorld.
Proof. by apply (clearSelection_without_network noNetworkWorld). Defined.

(** By contrast, with the handle there the call does all three. *)
Example clearSelection_demo :
  (selection <$> network (clearSelection demoWorld)) = Some []
  /\ node_color_of (IdNum 2) (clearSelection demoWorld)
     = Some nodeDefaultColor
  /\ node_color_of (IdStr "n3") (clearSelection demoWorld)
     = Some nodeDefaultColor
  /\ edge_color_of (IdNum 11) (clearSelection demoWorld)
     = Some edgeDefaultColor
  /\ (display <$> getElementById "node-info" (clearSelection demoWorld))
     = Some "none".
Proof. vm_compute. repeat split. Qed.

(** ** Functions that only touch the elements of the page *)

Section page_only.
Implicit Types (w : World).

Lemma set_elems_elems w : set_elems (elems w) w = w.
Proof. by destruct w. Qed.

Lemma updateThemeButton_frame (isLight : bool) w :
  updateThemeButton isLight w =
  set_elems (elems (updateThemeButton isLight w)) w.
Proof.
  unfold updateThemeButton.
  destruct (getElementById _ w); [done | by rewrite set_elems_elems].
Qed.

Lemma applyIcon_frame w (e : string * dnode) w' :
  applyIcon w e = Some w' -> w' = set_elems (elems w') w.
Proof.
  unfold applyIcon. destruct (getElementById _ w) as [b|].
  - destruct (iconMarkup _ _); [|done]. by intros [= <-].
  - intros [= <-]. by rewrite set_elems_elems.
Qed.

Lemma forEach_frame (entries : list (string * dnode)) w w' :
  forEach entries w = Some w' -> w' = set_elems (elems w') w.
Proof.
  revert w. induction entries as [|e entries IH]; intros w; simpl.
  - intros [= <-]. by rewrite set_elems_elems.
  - destruct (applyIcon w e) as [w1|] eqn:E; [|done]. intros F.
    apply IH in F. apply applyIcon_frame in E.
    rewrite F, E at 1. done.
Qed.

Lemma infoInit_frame w : infoInit w = set_elems (elems (infoInit w)) w.
Proof.
  unfold infoInit.
  destruct (getElementById "info-box" w) as [box|];
    [|by rewrite set_elems_elems].
  destruct (getElementById "toggle-info-btn" w) as [btn|];
    [done | by rewrite set_elems_elems].
Qed.

Lemma runListener_frame w (l : Listener) w' :
  runListener w l = Some w' -> w' = set_elems (elems w') w.
Proof.
  destruct l as [isLight|]; simpl.
  - intros F%forEach_frame. rewrite F at 1.
    by rewrite updateThemeButton_frame.
  - intros [= <-]. apply infoInit_frame.
Qed.

Lemma dispatch_frame (ls : list Listener) w w' :
  dispatch ls w = Some w' -> w' = set_elems (elems w') w.
Proof.
  revert w. induction ls as [|l ls IH]; intros w; simpl.
  - intros [= <-]. by rewrite set_elems_elems.
  - destruct (runListener w l) as [w1|] eqn:E; [|done]. intros F.
    apply IH in F. apply runListener_frame in E. rewrite F, E at 1. done.
Qed.

End page_only.

(** ** The theme *)

Section theme_facts.
Implicit Types (w : World).

Lemma themeLoad_available w (m : gmap string string) :
  localStorage w = Some m ->
  themeLoad w =
  let isLight := bool_decide (or_dark (m !! "theme") = "light") in
  let w1 := log (StorageGet "theme") w in
  let w2 :=
    if isLight
    then set_body_classList
           (DOMTokenList.add "light-theme" (body_classList w1)) w1
    else w1 in
  set_listeners (listeners w2 ++ [ThemeInit isLight]) w2.
Proof. intros E. unfold themeLoad, getItem. by rewrite E. Qed.

Lemma themeLoad_unavailable w :
  localStorage w = None ->
  themeLoad w =
  set_listeners (listeners w ++ [ThemeInit false])
    (log (ConsoleWarn storageWarning) (log (StorageGet "theme") w)).
Proof. intros E. unfold themeLoad, getItem. by rewrite E. Qed.

Lemma themeLoad_reads w :
  storage_reads (trace (themeLoad w)) = storage_reads (trace w) ++ ["theme"].
Proof.
  unfold storage_reads. destruct (localStorage w) as [m|] eqn:E.
  - rewrite (themeLoad_available w m E). cbv zeta.
    case_bool_decide; simpl; by rewrite omap_app.
  - rewrite (themeLoad_unavailable w E). simpl.
    by rewrite !omap_app, <- app_assoc.
Qed.

Lemma pageLoad_trace w w' :
  pageLoad w = Some w' -> trace w' = trace (themeLoad w).
Proof.
  unfold pageLoad, domContentLoaded. intros F%dispatch_frame.
  by rewrite F.
Qed.

End theme_facts.

(** C8. Loading reads the theme once from the store, under the key "theme":
    the loader makes one [getItem] call, with that key, and the callbacks
    that run when the page is ready make none.  When nothing is stored under
    the key, or the store is unavailable, the classes of [<body>] are left
    as they were (the class light-theme is not added) and the button is
    later labelled for the dark theme.  When the store is unavailable the
    failed read is followed by one warning on the console, and the loader
    does nothing else besides registering its callback. *)
Theorem themeLoad_reads_once_defaults_dark (w : World) :
  storage_reads (trace (themeLoad w)) = storage_reads (trace w) ++ ["theme"]
  /\ (forall w', pageLoad w = Some w' ->
        storage_reads (trace w') = storage_reads (trace w) ++ ["theme"])
  /\ (localStorage w = None
      \/ (exists m, localStorage w = Some m /\ m !! "theme" = None) ->
      body_classList (themeLoad w) = body_classList w
      /\ listeners (themeLoad w) = listeners w ++ [ThemeInit false])
  /\ (localStorage w = None ->
      themeLoad w =
      set_listeners (listeners w ++ [ThemeInit false])
        (log (ConsoleWarn storageWarning) (log (StorageGet "theme") w))).
Proof.
  split; [apply themeLoad_reads|].
  split; [|split; [|apply themeLoad_unavailable]].
  - intros w' L%pageLoad_trace. rewrite L. apply themeLoad_reads.
  - intros [E | (m & E & A)].
    + by rewrite (themeLoad_unavailable w E).
    + by rewrite (themeLoad_available w m E), A.
Qed.

(** The store of the sample page is empty: it loads in the dark theme, the
    button offers the light one, and the store is still empty. *)
Example pageLoad_demo :
  isLightMode loadedWorld = false
  /\ (textContents <$> theme_label loadedWorld)
     = Some " Switch to Light Theme"
  /\ stored_theme loadedWorld = None
  /\ trace loadedWorld = [StorageGet "theme"].
Proof. vm_compute. repeat split. Qed.

(** A stored "light" is applied. *)
Example themeLoad_light :
  body_classList
    (themeLoad (set_localStorage (Some {[ "theme" := "light" ]}) demoWorld))
  = ["light-theme"].
Proof. reflexivity. Qed.

Example themeLoad_no_store :
  trace (themeLoad noStorageWorld)
  = [StorageGet "theme"; ConsoleWarn storageWarning]
  /\ body_classList (themeLoad noStorageWorld) = [].
Proof. done. Qed.

Example pageLoad_demo_returns : pageLoad demoWorld = Some loadedWorld.
Proof. vm_compute. reflexivity. Qed.

Section toggle_theme_facts.
Implicit Types (w : World).

Lemma contains_toggle (c : string) (l : list string) :
  DOMTokenList.contains c (DOMTokenList.toggle c l)
  = negb (DOMTokenList.contains c l).
Proof.
  unfold DOMTokenList.toggle, DOMTokenList.contains, DOMTokenList.remove.
  destruct (decide (c ∈ l)) as [E|E].
  - rewrite (bool_decide_eq_true_2 _ E). simpl.
    apply bool_decide_eq_false. rewrite list_elem_of_filter. by intros [? _].
  - rewrite (bool_decide_eq_false_2 _ E). simpl.
    apply bool_decide_eq_true. apply elem_of_app. right. by left.
Qed.

Lemma contains_add (c : string) (l : list string) :
  DOMTokenList.contains c (DOMTokenList.add c l) = true.
Proof.
  unfold DOMTokenList.add, DOMTokenList.contains.
  destruct (decide (c ∈ l)) as [E|E].
  - rewrite (bool_decide_eq_true_2 _ E). by apply bool_decide_eq_true.
  - rewrite (bool_decide_eq_false_2 _ E). apply bool_decide_eq_true.
    apply elem_of_app. right. by left.
Qed.

(** One call, with the outcome of [setItem] spelled out. *)
Lemma toggleTheme_eq w :
  toggleTheme w =
  let isLight := negb (isLightMode w) in
  let w1 :=
    set_body_classList
      (DOMTokenList.toggle "light-theme" (body_classList w)) w in
  updateThemeButton isLight
    match localStorage w with
    | Some m =>
        set_localStorage (Some (<["theme" := modeName isLight]> m))
          (log (StorageSet "theme" (modeName isLight)) w1)
    | None =>
        log (ConsoleWarn storageWarning)
          (log (StorageSet "theme" (modeName isLight)) w1)
    end.
Proof.
  unfold toggleTheme. cbn [body_classList set_body_classList].
  rewrite contains_toggle. fold (isLightMode w).
  unfold setItem. cbn [localStorage set_body_classList]. cbv zeta.
  destruct (localStorage w); reflexivity.
Qed.

Lemma isLightMode_toggleTheme w :
  isLightMode (toggleTheme w) = negb (isLightMode w).
Proof.
  rewrite toggleTheme_eq. cbv zeta. rewrite updateThemeButton_frame.
  unfold isLightMode at 1. cbn [body_classList set_elems].
  destruct (localStorage w);
    cbn [body_classList set_localStorage log set_trace set_body_classList];
    apply contains_toggle.
Qed.

(** What one call stores: the name of the new mode, when there is a store. *)
Lemma localStorage_toggleTheme w :
  localStorage (toggleTheme w) =
  (fun m => <["theme" := modeName (negb (isLightMode w))]> m)
    <$> localStorage w.
Proof.
  rewrite toggleTheme_eq. cbv zeta. rewrite updateThemeButton_frame.
  cbn [localStorage set_elems].
  destruct (localStorage w) eqn:E; [done|].
  cbn [localStorage log set_trace set_body_classList]. by rewrite E.
Qed.

(** What one call writes on the button: the label for the new mode, when
    there is a button. *)
Lemma theme_button_toggleTheme w :
  getElementById "theme-toggle-btn" (toggleTheme w) =
  set_content (themeButtonLabel (negb (isLightMode w)))
    <$> getElementById "theme-toggle-btn" w.
Proof.
  rewrite toggleTheme_eq. cbv zeta.
  unfold updateThemeButton, getElementById.
  destruct (localStorage w);
    cbn [elems set_localStorage log set_trace set_body_classList];
    destruct (elems w !! "theme-toggle-btn") eqn:E;
    cbn [elems set_element set_elems set_localStorage log set_trace
         set_body_classList fmap option_fmap option_map];
    by rewrite ?lookup_insert_eq, ?E.
Qed.

Lemma stored_theme_toggleTheme w :
  stored_theme (toggleTheme w) =
  match localStorage w with
  | Some _ => Some (modeName (negb (isLightMode w)))
  | None => None
  end.
Proof.
  unfold stored_theme. rewrite localStorage_toggleTheme.
  destruct (localStorage w); simpl; [|done]. by rewrite lookup_insert_eq.
Qed.

Lemma theme_label_toggleTheme w :
  theme_label (toggleTheme w) =
  match getElementById "theme-toggle-btn" w with
  | Some _ => Some (themeButtonLabel (negb (isLightMode w)))
  | None => None
  end.
Proof.
  unfold theme_label. rewrite theme_button_toggleTheme.
  by destruct (getElementById _ w).
Qed.

(** Every call leaves the stored value and the label in step with the
    mode. *)
Lemma toggleTheme_in_sync w : theme_in_sync (toggleTheme w).
Proof.
  split.
  - intros m E. rewrite isLightMode_toggleTheme.
    rewrite localStorage_toggleTheme in E.
    destruct (localStorage w); simplify_eq/=. by rewrite lookup_insert_eq.
  - intros b E. rewrite isLightMode_toggleTheme.
    rewrite theme_button_toggleTheme in E.
    destruct (getElementById _ w); by simplify_eq/=.
Qed.

Lemma themeButtonLabel_text (isLight : bool) :
  textContents (themeButtonLabel isLight) =
  " Switch to " +:+ (if isLight then "Dark" else "Light") +:+ " Theme".
Proof. by destruct isLight. Qed.

End toggle_theme_facts.

(** C5, as stated, fails on a first visit: nothing is stored under "theme"
    when the page has loaded, and after two calls of [toggleTheme] the value
    "dark" is.  The label does not come back either when it did not name
    the other theme to begin with, as on the page before it is ready. *)
Lemma toggleTheme_twice_first_visit :
  stored_theme loadedWorld = None
  /\ stored_theme (toggleTheme (toggleTheme loadedWorld)) = Some "dark"
  /\ (textContents <$> theme_label demoWorld) = Some "Theme"
  /\ (textContents <$> theme_label (toggleTheme (toggleTheme demoWorld)))
     = Some " Switch to Light Theme".
Proof. vm_compute. repeat split. Qed.

(** C5, amended. From any state, two calls of [toggleTheme] return the page
    to the mode it was in.  They return the value stored under "theme"
    exactly when the store is unavailable or the value already named that
    mode; with a store the value afterwards always names it, so an entry
    that was missing, as on a first visit, is now "dark" or "light".  The
    preference as the loader reads it (the stored value, or "dark" when
    there is none) comes back exactly when the store is unavailable or the
    preference named the mode of the page.  They return the label of the
    button exactly when the button is missing or the label already offered
    the other theme.  After each of the two calls the label, when the
    button exists, reads "Switch to Dark Theme" if the page is now light
    and "Switch to Light Theme" if it is now dark. *)
Theorem toggleTheme_two_calls (w : World) :
  isLightMode (toggleTheme (toggleTheme w)) = isLightMode w
  /\ (stored_theme (toggleTheme (toggleTheme w)) = stored_theme w
      <-> localStorage w = None
          \/ stored_theme w = Some (modeName (isLightMode w)))
  /\ (localStorage w <> None ->
      stored_theme (toggleTheme (toggleTheme w))
      = Some (modeName (isLightMode w)))
  /\ (or_dark (stored_theme (toggleTheme (toggleTheme w)))
      = or_dark (stored_theme w)
      <-> localStorage w = None
          \/ or_dark (stored_theme w) = modeName (isLightMode w))
  /\ (theme_label (toggleTheme (toggleTheme w)) = theme_label w
      <-> theme_label w = None
          \/ theme_label w = Some (themeButtonLabel (isLightMode w)))
  /\ (forall w', w' = toggleTheme w \/ w' = toggleTheme (toggleTheme w) ->
      forall b, getElementById "theme-toggle-btn" w' = Some b ->
        textContents (content b) =
        " Switch to " +:+ (if isLightMode w' then "Dark" else "Light")
          +:+ " Theme").
Proof.
  assert (stored_theme (toggleTheme (toggleTheme w))
          = match localStorage w with
            | Some _ => Some (modeName (isLightMode w))
            | None => None
            end) as S.
  { rewrite stored_theme_toggleTheme, localStorage_toggleTheme,
      isLightMode_toggleTheme, negb_involutive.
    by destruct (localStorage w). }
  assert (theme_label (toggleTheme (toggleTheme w))
          = match theme_label w with
            | Some _ => Some (themeButtonLabel (isLightMode w))
            | None => None
            end) as L.
  { rewrite theme_label_toggleTheme, theme_button_toggleTheme,
      isLightMode_toggleTheme, negb_involutive.
    unfold theme_label. by destruct (getElementById _ w). }
  split; [by rewrite !isLightMode_toggleTheme, negb_involutive|].
  split; [|split; [|split; [|split]]].
  - rewrite S. unfold stored_theme. destruct (localStorage w) as [m|].
    + split; [intros <-; by right | by intros [? | <-]].
    + split; [by left | done].
  - rewrite S. by destruct (localStorage w).
  - rewrite S. unfold stored_theme. destruct (localStorage w) as [m|].
    + assert (or_dark (Some (modeName (isLightMode w)))
              = modeName (isLightMode w)) as ->
        by (by destruct (isLightMode w)).
      split; [intros <-; by right | by intros [? | <-]].
    + split; [by left | done].
  - rewrite L. destruct (theme_label w) as [l|].
    + split; [intros <-; by right | by intros [? | <-]].
    + split; [by left | done].
  - intros w' Hw' b E.
    assert (theme_in_sync w') as [_ Sy]
      by (destruct Hw' as [-> | ->]; apply toggleTheme_in_sync).
    rewrite (Sy b E). apply themeButtonLabel_text.
Qed.

(** On a first visit the mode, the label and the preference as the loader
    reads it do come back; only the stored value does not. *)
Example first_visit_label_returns :
  isLightMode (toggleTheme (toggleTheme loadedWorld)) = isLightMode loadedWorld
  /\ theme_label (toggleTheme (toggleTheme loadedWorld))
     = theme_label loadedWorld
  /\ or_dark (stored_theme (toggleTheme (toggleTheme loadedWorld)))
     = or_dark (stored_theme loadedWorld).
Proof. vm_compute. repeat split. Qed.

(** Without a store each call only warns, and the label still follows. *)
Example toggleTheme_no_store :
  trace (toggleTheme noStorageWorld)
  = [StorageSet "theme" "light"; ConsoleWarn storageWarning]
  /\ stored_theme (toggleTheme noStorageWorld) = None
  /\ (textContents <$> theme_label (toggleTheme noStorageWorld))
     = Some " Switch to Dark Theme".
Proof. vm_compute. repeat split. Qed.

(** ** The info panel *)

Section info_facts.
Implicit Types (w : World).

(** One call: the panel flips, and the button shows the state that goes
    with the new visibility. *)
Lemma toggleInfoBox_step w (h : bool) :
  panelHidden w = Some h ->
  is_Some (getElementById "toggle-info-btn" w) ->
  panelHidden (toggleInfoBox w) = Some (negb h)
  /\ toggleIcon (toggleInfoBox w) = Some (infoButtonState (negb h)).
Proof.
  unfold panelHidden, toggleIcon, toggleInfoBox, getElementById.
  destruct (elems w !! "info-box") as [box|] eqn:Eb; [|done].
  intros [= <-] [btn Et]. rewrite Et.
  cbn [classList set_classList]. rewrite contains_toggle.
  destruct (DOMTokenList.contains "hidden" (classList box)) eqn:E;
    cbn [negb elems set_element set_elems];
    rewrite lookup_insert_eq, lookup_insert_ne, lookup_insert_eq by done;
    cbn [fmap option_fmap option_map classList set_classList set_content
         set_elem_title content elem_title];
    by rewrite contains_toggle, E.
Qed.

Lemma toggleInfoBox_iter w (h : bool) (k : nat) :
  panelHidden w = Some h ->
  toggleIcon w = Some (infoButtonState h) ->
  panelHidden (Nat.iter k toggleInfoBox w)
  = Some (if Nat.even k then h else negb h)
  /\ toggleIcon (Nat.iter k toggleInfoBox w)
     = Some (infoButtonState (if Nat.even k then h else negb h)).
Proof.
  intros Hp Hi. induction k as [|k [IHp IHi]]; [done|].
  change (Nat.iter (S k) toggleInfoBox w)
    with (toggleInfoBox (Nat.iter k toggleInfoBox w)).
  destruct (toggleInfoBox_step _ _ IHp) as [Sp Si].
  { unfold toggleIcon in IHi. by destruct (getElementById _ _). }
  rewrite Sp, Si, Nat.even_succ, <- Nat.negb_even.
  by destruct (Nat.even k), h.
Qed.


Lemma infoButtonState_inj (h h' : bool) :
  infoButtonState h = infoButtonState h' -> h = h'.
Proof. by destruct h, h'. Qed.

End info_facts.

(** Any number of calls: the panel follows the parity, and from the first
    call on the button shows the state that goes with the panel. *)
Lemma toggleInfoBox_iter_any (w : World) (h : bool) (k : nat) :
  panelHidden w = Some h ->
  is_Some (getElementById "toggle-info-btn" w) ->
  panelHidden (Nat.iter k toggleInfoBox w)
  = Some (if Nat.even k then h else negb h)
  /\ is_Some (getElementById "toggle-info-btn" (Nat.iter k toggleInfoBox w))
  /\ (k <> 0 ->
      toggleIcon (Nat.iter k toggleInfoBox w)
      = Some (infoButtonState (if Nat.even k then h else negb h))).
Proof.
  intros Hp Hb. induction k as [|k (IHp & IHb & _)]; [done|].
  change (Nat.iter (S k) toggleInfoBox w)
    with (toggleInfoBox (Nat.iter k toggleInfoBox w)).
  destruct (toggleInfoBox_step _ _ IHp IHb) as [Sp Si].
  assert ((if Nat.even (S k) then h else negb h)
          = negb (if Nat.even k then h else negb h)) as E.
  { rewrite Nat.even_succ, <- Nat.negb_even. by destruct (Nat.even k), h. }
  rewrite E. split; [exact Sp|]. split; [|intros _; exact Si].
  unfold toggleIcon in Si.
  destruct (getElementById "toggle-info-btn" (toggleInfoBox _)); [by eexists|done].
Qed.

(** C7, as stated, fails when the button does not show the state of the
    panel before the first call: on the sample page before it is ready the
    button reads "i" with no title, and after two calls it shows the arrow
    and "Hide Info Panel", though panel and button both exist. *)
Lemma toggleInfoBox_twice_changes_button :
  is_Some (getElementById "info-box" demoWorld)
  /\ toggleIcon demoWorld = Some ([Text "i"], "")
  /\ toggleIcon (Nat.iter 2 toggleInfoBox demoWorld)
     = Some ([Text arrowIcon], "Hide Info Panel")
  /\ panelHidden (Nat.iter 2 toggleInfoBox demoWorld)
     = panelHidden demoWorld.
Proof. vm_compute. repeat split. by eexists. Qed.

(** C7, amended. With the info panel there, hidden or not ([h]), and the
    toggle button there: after an even number of calls of [toggleInfoBox]
    the panel is hidden or not as before the first call, after an odd
    number the other way round; and after any call the button shows the
    icon and title that go with the state of the panel.  So when the button
    showed the icon and title of the panel's state before the first call
    (as the page-ready callback leaves it), an even number of calls leaves
    icon and title as they were and an odd number gives those of the other
    state; when it did not, two calls do not give them back. *)
Theorem toggleInfoBox_parity (w : World) (h : bool) (k : nat) :
  panelHidden w = Some h ->
  is_Some (getElementById "toggle-info-btn" w) ->
  panelHidden (Nat.iter k toggleInfoBox w)
  = Some (if Nat.even k then h else negb h)
  /\ (k <> 0 ->
      toggleIcon (Nat.iter k toggleInfoBox w)
      = Some (infoButtonState (if Nat.even k then h else negb h)))
  /\ (toggleIcon w = Some (infoButtonState h) ->
      if Nat.even k
      then toggleIcon (Nat.iter k toggleInfoBox w) = toggleIcon w
      else toggleIcon (Nat.iter k toggleInfoBox w)
           = Some (infoButtonState (negb h))
           /\ toggleIcon (Nat.iter k toggleInfoBox w) <> toggleIcon w)
  /\ (toggleIcon (Nat.iter 2 toggleInfoBox w) = toggleIcon w ->
      toggleIcon w = Some (infoButtonState h)).
Proof.
  intros Hp Hb.
  destruct (toggleInfoBox_iter_any w h k Hp Hb) as (Sp & _ & Si).
  split; [done|]. split; [done|]. split.
  - intros Hi. destruct k as [|k].
    + done.
    + rewrite Si, Hi by done. destruct (Nat.even (S k)); [done|].
      split; [done|]. intros [= E%infoButtonState_inj]. by destruct h.
  - destruct (toggleInfoBox_iter_any w h 2 Hp Hb) as (_ & _ & S2).
    rewrite S2 by done. by intros <-.
Qed.

(** The loaded sample page, toggled three times. *)
Lemma toggleInfoBox_parity_witness :
  panelHidden (Nat.iter 3 toggleInfoBox loadedWorld) = Some false
  /\ (3 <> 0 ->
      toggleIcon (Nat.iter 3 toggleInfoBox loadedWorld)
      = Some (infoButtonState false))
  /\ (toggleIcon loadedWorld = Some (infoButtonState true) ->
      toggleIcon (Nat.iter 3 toggleInfoBox loadedWorld)
      = Some (infoButtonState false)
      /\ toggleIcon (Nat.iter 3 toggleInfoBox loadedWorld)
         <> toggleIcon loadedWorld)
  /\ (toggleIcon (Nat.iter 2 toggleInfoBox loadedWorld)
      = toggleIcon loadedWorld ->
      toggleIcon loadedWorld = Some (infoButtonState true)).
Proof.
  apply (toggleInfoBox_parity loadedWorld true 3).
  - vm_compute. reflexivity.
  - vm_compute. by eexists.
Defined.

(** Twice on the loaded sample page. *)
Example toggleInfoBox_twice_demo :
  panelHidden (toggleInfoBox (toggleInfoBox loadedWorld))
  = panelHidden loadedWorld
  /\ toggleIcon (toggleInfoBox (toggleInfoBox loadedWorld))
     = toggleIcon loadedWorld.
Proof. vm_compute. repeat split. Qed.

(** Without the panel or without the button nothing happens. *)
Example toggleInfoBox_no_panel :
  toggleInfoBox (set_elems (delete "info-box" demoElems) demoWorld)
  = set_elems (delete "info-box" demoElems) demoWorld.
Proof. vm_compute. reflexivity. Qed.

(** ** The icons *)

Section icon_facts.
Implicit Types (w : World) (entries : list (string * dnode)).

Lemma append_empty_r (s : string) : s +:+ EmptyString = s.
Proof.
  induction s as [|c s IH]; [done|].
  change (String c (s +:+ EmptyString) = String c s). by rewrite IH.
Qed.

Lemma btn_id_inj (k k' : string) : "btn-" +:+ k = "btn-" +:+ k' -> k = k'.
Proof. apply (String.app_inj "btn-"). Qed.

Lemma applyIcon_Some w (e : string * dnode) w' :
  applyIcon w e = Some w' ->
  elems w' =
  match elems w !! ("btn-" +:+ e.1) with
  | Some b => <["btn-" +:+ e.1 := iconized e.2 b]> (elems w)
  | None => elems w
  end
  /\ (forall b, elems w !! ("btn-" +:+ e.1) = Some b ->
        plain_text (trim (textContents (content b))) = true).
Proof.
  unfold applyIcon, getElementById, iconMarkup.
  destruct (elems w !! ("btn-" +:+ e.1)) as [b|].
  - destruct (plain_text _) eqn:P; [|done]. intros [= <-].
    split; [done|]. by intros ? [= <-].
  - intros [= <-]. split; [done|]. done.
Qed.

(** A button that already holds its icon is written back as it is. *)
Lemma applyIcon_iconized w (e : string * dnode) (b : Element) :
  textContent e.2 = EmptyString ->
  plain_text (trim (textContents (content b))) = true ->
  elems w !! ("btn-" +:+ e.1) = Some (iconized e.2 b) ->
  applyIcon w e = Some w.
Proof.
  intros T P E. unfold applyIcon, getElementById. rewrite E.
  assert (trim (textContents (content (iconized e.2 b)))
          = trim (textContents (content b))) as R.
  { unfold iconized. cbn [content set_content textContents foldr].
    cbn [textContent foldr]. rewrite T.
    change (trim ((" " +:+ trim (textContents (content b))) +:+ EmptyString)
            = trim (textContents (content b))).
    rewrite append_empty_r. apply trim_space_trim. }
  cbv zeta. rewrite R. unfold iconMarkup. rewrite P.
  f_equal. unfold set_element.
  rewrite insert_id; [apply set_elems_elems|].
  rewrite E. f_equal.
Qed.

Lemma applyIcon_absent w (e : string * dnode) :
  elems w !! ("btn-" +:+ e.1) = None -> applyIcon w e = Some w.
Proof. intros E. unfold applyIcon, getElementById. by rewrite E. Qed.

(** What the loop leaves under each id, for entries with distinct keys. *)
Lemma forEach_lookup entries w w' :
  NoDup entries.*1 ->
  forEach entries w = Some w' ->
  (forall id, (forall e, e ∈ entries -> id <> "btn-" +:+ e.1) ->
     elems w' !! id = elems w !! id)
  /\ (forall e, e ∈ entries ->
        elems w' !! ("btn-" +:+ e.1)
        = iconized e.2 <$> elems w !! ("btn-" +:+ e.1)
        /\ (forall b, elems w !! ("btn-" +:+ e.1) = Some b ->
              plain_text (trim (textContents (content b))) = true)).
Proof.
  revert w. induction entries as [|e entries IH]; intros w ND; simpl.
  - intros [= <-]. split; [done|]. by intros e ?%elem_of_nil.
  - destruct (applyIcon w e) as [w1|] eqn:A; [|done]. intros F.
    apply NoDup_cons in ND as [Hnot ND].
    destruct (IH w1 ND F) as [Hother Hin].
    destruct (applyIcon_Some w e w1 A) as [E1 P1].
    assert (forall id, id <> "btn-" +:+ e.1 ->
              elems w1 !! id = elems w !! id) as K.
    { intros id Hne. rewrite E1.
      destruct (elems w !! ("btn-" +:+ e.1)); [|done].
      by rewrite lookup_insert_ne. }
    split.
    + intros id Hid. rewrite Hother.
      * apply K, Hid. by left.
      * intros e' He'. apply Hid. by right.
    + intros e' [-> | He']%elem_of_cons.
      * split; [|done]. rewrite Hother.
        -- rewrite E1. destruct (elems w !! ("btn-" +:+ e.1)) eqn:Eb.
           ++ by rewrite lookup_insert_eq.
           ++ by rewrite Eb.
        -- intros e' He' Heq%btn_id_inj. apply Hnot.
           rewrite Heq. by apply list_elem_of_fmap_2.
      * assert ("btn-" +:+ e'.1 <> "btn-" +:+ e.1) as Hne.
        { intros Heq%btn_id_inj. apply Hnot. rewrite <- Heq.
          by apply list_elem_of_fmap_2. }
        destruct (Hin e' He') as [L P]. rewrite L, (K _ Hne).
        split; [done|]. intros b Eb. apply P. by rewrite (K _ Hne).
Qed.

(** Running the loop on a page where every step writes back what is there. *)
Lemma forEach_fixed entries w :
  (forall e, e ∈ entries -> applyIcon w e = Some w) ->
  forEach entries w = Some w.
Proof.
  induction entries as [|e entries IH]; intros H; simpl; [done|].
  rewrite H by left. apply IH. intros e' He'. apply H. by right.
Qed.

Lemma forEach_idempotent entries w w' :
  NoDup entries.*1 ->
  (forall e, e ∈ entries -> textContent e.2 = EmptyString) ->
  forEach entries w = Some w' ->
  forEach entries w' = Some w'.
Proof.
  intros ND T F. destruct (forEach_lookup entries w w' ND F) as [_ Hin].
  apply forEach_fixed. intros e He. destruct (Hin e He) as [L P].
  destruct (elems w !! ("btn-" +:+ e.1)) as [b|] eqn:Eb; simpl in L.
  - apply (applyIcon_iconized w' e b); auto.
  - by apply applyIcon_absent.
Qed.

Lemma svgIcons_NoDup : NoDup svgIcons.*1.
Proof. apply (bool_decide_unpack _). vm_compute. exact I. Qed.

Lemma svgIcons_no_text (e : string * dnode) :
  e ∈ svgIcons -> textContent e.2 = EmptyString.
Proof.
  unfold svgIcons. intros (k & -> & _)%list_elem_of_fmap. done.
Qed.

(** The loop returns whenever the text of every button it meets is plain. *)
Lemma forEach_plain entries w :
  NoDup entries.*1 ->
  (forall e b, e ∈ entries -> elems w !! ("btn-" +:+ e.1) = Some b ->
     plain_text (trim (textContents (content b))) = true) ->
  is_Some (forEach entries w).
Proof.
  revert w. induction entries as [|e entries IH]; intros w ND P; simpl;
    [by eexists|].
  apply NoDup_cons in ND as [Hnot ND].
  assert (exists w1, applyIcon w e = Some w1) as [w1 A].
  { unfold applyIcon, getElementById, iconMarkup.
    destruct (elems w !! ("btn-" +:+ e.1)) as [b|] eqn:Eb; [|by eexists].
    rewrite (P e b) by (done || by left). by eexists. }
  rewrite A. apply IH; [done|]. intros e' b He' Eb.
  destruct (applyIcon_Some w e w1 A) as [E1 _].
  assert ("btn-" +:+ e'.1 <> "btn-" +:+ e.1) as Hne.
  { intros Heq%btn_id_inj. apply Hnot. rewrite <- Heq.
    by apply list_elem_of_fmap_2. }
  apply (P e' b); [by right|]. rewrite <- Eb, E1.
  destruct (elems w !! ("btn-" +:+ e.1)); [|done].
  by rewrite lookup_insert_ne.
Qed.

End icon_facts.

(** C4, as stated, fails: on the sample page the second call of
    [applyIcons] leaves exactly what the first call left, and the button
    still holds one icon.  The second call reads the text of the button,
    to which the icon contributes nothing, and writes the same content. *)
Lemma applyIcons_second_call_same :
  (content <$> getElementById "btn-play" iconsWorld)
  = Some [Span "button-icon" [SvgIcon "play"]; Text " Play"]
  /\ applyIcons demoWorld = Some iconsWorld
  /\ applyIcons iconsWorld = Some iconsWorld
  /\ (icon_counts <$> (content <$> getElementById "btn-play" iconsWorld))
     = Some 1.
Proof. vm_compute. repeat split. Qed.

(** C4, amended. [applyIcons] is idempotent wherever it returns (the text of
    the buttons is plain): a second call leaves the page as the first call
    left it.  After the first call every button [btn-<name>] of the registry
    holds one icon followed by a space and the trimmed text it had. *)
Theorem applyIcons_idempotent (w w1 : World) :
  applyIcons w = Some w1 ->
  applyIcons w1 = Some w1
  /\ (forall e b, e ∈ svgIcons ->
        getElementById ("btn-" +:+ e.1) w = Some b ->
        getElementById ("btn-" +:+ e.1) w1 = Some (iconized e.2 b)
        /\ content (iconized e.2 b)
           = [Span "button-icon" [SvgIcon e.1];
              Text (" " +:+ trim (textContents (content b)))]
        /\ icon_counts (content (iconized e.2 b)) = 1).
Proof.
  intros F. split.
  - apply (forEach_idempotent svgIcons w w1);
      [apply svgIcons_NoDup | apply svgIcons_no_text | done].
  - intros e b He Eb.
    destruct (forEach_lookup svgIcons w w1 svgIcons_NoDup F) as [_ Hin].
    destruct (Hin e He) as [L _]. unfold getElementById in *.
    rewrite L, Eb. split; [done|].
    unfold svgIcons in He. apply list_elem_of_fmap in He as (k & -> & _).
    done.
Qed.

Lemma applyIcons_idempotent_witness :
  applyIcons iconsWorld = Some iconsWorld
  /\ (forall e b, e ∈ svgIcons ->
        getElementById ("btn-" +:+ e.1) demoWorld = Some b ->
        getElementById ("btn-" +:+ e.1) iconsWorld = Some (iconized e.2 b)
        /\ content (iconized e.2 b)
           = [Span "button-icon" [SvgIcon e.1];
              Text (" " +:+ trim (textContents (content b)))]
        /\ icon_counts (content (iconized e.2 b)) = 1).
Proof.
  apply (applyIcons_idempotent demoWorld iconsWorld).
  vm_compute. reflexivity.
Defined.

(** [applyIcons] returns on every page whose buttons hold plain text. *)
Lemma applyIcons_returns (w : World) :
  (forall e b, e ∈ svgIcons ->
     getElementById ("btn-" +:+ e.1) w = Some b ->
     plain_text (trim (textContents (content b))) = true) ->
  is_Some (applyIcons w).
Proof. apply forEach_plain, svgIcons_NoDup. Qed.

(** * Further properties of the script *)

(** ** Searching again, and clearing *)

Section search_more.
Implicit Types (w : World) (ns : gmap Id Node) (es : gmap Id Edge)
  (query : string) (n : Node).

Lemma with_color_texts (c : jscolor) n n' :
  label n = label n' -> title n = title n' ->
  with_color c n = with_color c n'.
Proof. intros L T. simpl. by rewrite L, T. Qed.

Lemma search_filter_texts query n n' :
  label n = label n' -> title n = title n' ->
  search_filter query n = search_filter query n'.
Proof. intros L T. unfold search_filter. by rewrite L, T. Qed.

Lemma searchNodes_absent query w : nodes w = None -> searchNodes query w = w.
Proof. intros E. unfold searchNodes. by rewrite E. Qed.

Lemma edges_searchNodes query w :
  edges (searchNodes query w) = edges (resetColors w).
Proof.
  destruct (nodes w) as [ns|] eqn:Hn.
  - destruct (truthy (trim query)) eqn:T.
    + assert (~ blank query) as B by (rewrite <- trim_blank; congruence).
      by rewrite (searchNodes_not_blank query w ns B Hn).
    + by rewrite searchNodes_blank by (by apply trim_blank).
  - rewrite searchNodes_absent, resetColors_absent by auto. done.
Qed.

(** The nodes after a search, whatever the query. *)
Lemma nodes_searchNodes query w ns :
  nodes w = Some ns ->
  nodes (searchNodes query w) =
  Some ((fun n => if truthy (trim query) && search_filter query n
                  then with_color searchResultColor n else reset_node w n)
          <$> ns).
Proof.
  intros Hn. destruct (truthy (trim query)) eqn:T.
  - assert (~ blank query) as B by (rewrite <- trim_blank; congruence).
    rewrite (searchNodes_not_blank query w ns B Hn).
    cbn [nodes set_nodes]. f_equal. apply map_eq. intros i.
    by rewrite search_update_lookup, lookup_fmap.
  - rewrite searchNodes_blank by (by apply trim_blank).
    by rewrite (nodes_resetColors w ns Hn).
Qed.

Lemma searchNodes_collections query w ns es :
  nodes w = Some ns -> edges w = Some es ->
  nodes (searchNodes query w) = Some (search_node query <$> ns)
  /\ edges (searchNodes query w) = Some (with_color edgeDefaultColor <$> es).
Proof.
  intros Hn He. split.
  - rewrite (nodes_searchNodes query w ns Hn). f_equal.
    apply map_fmap_ext. intros i n _. unfold search_node, reset_node.
    rewrite He. by destruct (_ && _).
  - rewrite edges_searchNodes. by rewrite (resetColors_present w ns es).
Qed.

Lemma searchNodes_collections_no_edges query w ns :
  nodes w = Some ns -> edges w = None ->
  nodes (searchNodes query w) = Some (search_node_no_edges query <$> ns)
  /\ edges (searchNodes query w) = None.
Proof.
  intros Hn He. split.
  - rewrite (nodes_searchNodes query w ns Hn). f_equal.
    apply map_fmap_ext. intros i n _. unfold search_node_no_edges, reset_node.
    by rewrite He.
  - rewrite edges_searchNodes. by rewrite resetColors_absent by auto.
Qed.

Lemma search_node_texts query n :
  label (search_node query n) = label n
  /\ title (search_node query n) = title n.
Proof. done. Qed.

Lemma search_node_no_edges_texts query n :
  label (search_node_no_edges query n) = label n
  /\ title (search_node_no_edges query n) = title n.
Proof. unfold search_node_no_edges. by destruct (_ && _). Qed.

Lemma search_node_absorbs query query' n :
  search_node query (search_node query' n) = search_node query n.
Proof.
  unfold search_node at 1 3.
  rewrite (search_filter_texts query (search_node query' n) n) by done.
  by apply with_color_texts.
Qed.

Lemma search_node_no_edges_idemp query n :
  search_node_no_edges query (search_node_no_edges query n)
  = search_node_no_edges query n.
Proof.
  destruct (search_node_no_edges_texts query n) as [L T].
  unfold search_node_no_edges at 1.
  rewrite (search_filter_texts query _ n L T).
  unfold search_node_no_edges. destruct (_ && _); [|done].
  apply with_color_with_color.
Qed.

End search_more.

(** X1. With the edge collection there, a search does not depend on the
    searches made before it: searching for [q2] after [q1] leaves the nodes
    and the edges as searching for [q2] alone does. *)
Theorem searchNodes_forgets_earlier_search
  (q1 q2 : string) (w : World) (es : gmap Id Edge) :
  edges w = Some es ->
  nodes (searchNodes q2 (searchNodes q1 w)) = nodes (searchNodes q2 w)
  /\ edges (searchNodes q2 (searchNodes q1 w)) = edges (searchNodes q2 w).
Proof.
  intros He. destruct (nodes w) as [ns|] eqn:Hn.
  - destruct (searchNodes_collections q1 w ns es Hn He) as [N1 E1].
    destruct (searchNodes_collections q2 w ns es Hn He) as [N2 E2].
    destruct (searchNodes_collections q2 _ _ _ N1 E1) as [N3 E3].
    rewrite N3, E3, N2, E2. split; f_equal.
    + rewrite <- map_fmap_compose. apply map_fmap_ext. intros i n _.
      apply search_node_absorbs.
    + apply item_color_fmap_idemp.
  - by rewrite !(searchNodes_absent _ w) by done.
Qed.

Lemma searchNodes_forgets_earlier_search_witness :
  nodes (searchNodes "leaf" (searchNodes "ROOT" demoWorld))
  = nodes (searchNodes "leaf" demoWorld)
  /\ edges (searchNodes "leaf" (searchNodes "ROOT" demoWorld))
     = edges (searchNodes "leaf" demoWorld).
Proof.
  apply (searchNodes_forgets_earlier_search "ROOT" "leaf" demoWorld demoEdges).
  reflexivity.
Defined.

(** X2. With the edge collection absent, nothing clears a highlight: a node
    that a search finds (the query passes the blank test and the filter
    accepts the node) keeps the search colour through any later search,
    blank or not, and through [clearHighlights].  Stated for the browser's
    own [toLowerCase] and [trim]. *)
Theorem highlight_stays_without_edges
  (lower strip : string -> string)
  (q1 q2 : string) (w : World) (ns : gmap Id Node) (i : Id) (n : Node) :
  edges w = None -> nodes w = Some ns -> ns !! i = Some n ->
  truthy (strip q1) = true -> search_filter_over lower q1 n = true ->
  node_color_of i (searchNodesOver lower strip q1 w) = Some searchResultColor
  /\ node_color_of i
       (searchNodesOver lower strip q2 (searchNodesOver lower strip q1 w))
     = Some searchResultColor
  /\ node_color_of i (clearHighlights (searchNodesOver lower strip q1 w))
     = Some searchResultColor.
Proof.
  intros He Hn Hi B M.
  pose proof (nodes_searchWith true _ w ns
                (search_filter_over_texts lower q1) Hn) as N1.
  assert (edges (searchNodesOver lower strip q1 w) = None) as E1.
  { rewrite searchNodesOver_searchWith, edges_searchWith.
    by rewrite resetColors_absent by auto. }
  rewrite <- B, <- searchNodesOver_searchWith in N1.
  assert (forall w', nodes w' = nodes (searchNodesOver lower strip q1 w) ->
            node_color_of i w' = Some searchResultColor) as K.
  { intros w' E. unfold node_color_of. rewrite E, N1, lookup_fmap, Hi.
    cbn [fmap option_fmap option_map]. by rewrite B, M. }
  split; [by apply K|]. split.
  - pose proof (nodes_searchWith (truthy (strip q2)) _ _ _
                  (search_filter_over_texts lower q2) N1) as N2.
    rewrite <- searchNodesOver_searchWith in N2.
    unfold node_color_of. rewrite N2, !lookup_fmap, Hi.
    cbn [fmap option_fmap option_map]. rewrite B, M. cbn [andb].
    unfold reset_node. rewrite E1. by destruct (_ && _).
  - apply K. unfold clearHighlights.
    rewrite (resetColors_absent (searchNodesOver lower strip q1 w)) by auto.
    by destruct (getElementById _ _).
Qed.

Lemma highlight_stays_without_edges_witness :
  node_color_of (IdNum 1) (searchNodesOver toLowerCase trim "ROOT" noEdgesWorld)
  = Some searchResultColor
  /\ node_color_of (IdNum 1)
       (searchNodesOver toLowerCase trim "leaf"
          (searchNodesOver toLowerCase trim "ROOT" noEdgesWorld))
     = Some searchResultColor
  /\ node_color_of (IdNum 1)
       (clearHighlights (searchNodesOver toLowerCase trim "ROOT" noEdgesWorld))
     = Some searchResultColor.
Proof.
  apply (highlight_stays_without_edges toLowerCase trim "ROOT" "leaf"
           noEdgesWorld demoNodes (IdNum 1)
           {| label := Some "Root"; title := None; node_color := None |}).
  - reflexivity.
  - reflexivity.
  - vm_compute. reflexivity.
  - reflexivity.
  - reflexivity.
Defined.

(** X3. Searching twice for the same query gives the colours of searching
    once, whatever the query and whether or not the collections exist. *)
Theorem searchNodes_idempotent (query : string) (w : World) :
  nodes (searchNodes query (searchNodes query w)) = nodes (searchNodes query w)
  /\ edges (searchNodes query (searchNodes query w))
     = edges (searchNodes query w).
Proof.
  destruct (nodes w) as [ns|] eqn:Hn.
  - destruct (edges w) as [es|] eqn:He.
    + destruct (searchNodes_collections query w ns es Hn He) as [N1 E1].
      destruct (searchNodes_collections query _ _ _ N1 E1) as [N2 E2].
      rewrite N2, E2, N1, E1. split; f_equal.
      * rewrite <- map_fmap_compose. apply map_fmap_ext. intros i n _.
        apply search_node_absorbs.
      * apply item_color_fmap_idemp.
    + destruct (searchNodes_collections_no_edges query w ns Hn He) as [N1 E1].
      destruct (searchNodes_collections_no_edges query _ _ N1 E1) as [N2 E2].
      rewrite N2, E2, N1, E1. split; [f_equal | done].
      rewrite <- map_fmap_compose. apply map_fmap_ext. intros i n _.
      apply search_node_no_edges_idemp.
  - by rewrite !(searchNodes_absent _ w) by done.
Qed.

(** ** The query *)

Section query_facts.
Implicit Types (w : World) (ns : gmap Id Node) (query : string) (n : Node).

Lemma is_ws_above_space (c : ascii) :
  (32 < nat_of_ascii c)%nat -> is_ws c = false.
Proof.
  intros H. unfold is_ws. apply orb_false_iff. split.
  - apply andb_false_iff. right. apply Nat.leb_gt. lia.
  - apply Nat.eqb_neq. lia.
Qed.

Lemma same_letter_is_ws (a b : ascii) : same_letter a b -> is_ws a = is_ws b.
Proof.
  intros [-> | [[U E] | [U E]]]; [done | |];
    apply is_upper_bounds in U;
    rewrite (is_ws_above_space a), (is_ws_above_space b) by lia; done.
Qed.

Lemma eq_ignore_case_blank (q1 q2 : string) :
  eq_ignore_case q1 q2 -> blank q1 <-> blank q2.
Proof.
  induction 1 as [|a b s t L _ IH]; [done|]. simpl.
  by rewrite (same_letter_is_ws a b L), IH.
Qed.

Lemma eq_ignore_case_trim_truthy (q1 q2 : string) :
  eq_ignore_case q1 q2 -> truthy (trim q1) = truthy (trim q2).
Proof.
  intros E%eq_ignore_case_blank.
  destruct (truthy (trim q1)) eqn:T1, (truthy (trim q2)) eqn:T2; try done.
  - apply trim_blank, E, trim_blank in T2. congruence.
  - apply trim_blank, E, trim_blank in T1. congruence.
Qed.

Lemma eq_ignore_case_search_filter (q1 q2 : string) :
  eq_ignore_case q1 q2 -> search_filter q1 = search_filter q2.
Proof.
  intros E%toLowerCase_eq_iff. unfold search_filter. by rewrite E.
Qed.

Lemma startsWith_length (s q : string) :
  startsWith s q = true -> (String.length q <= String.length s)%nat.
Proof.
  revert s. induction q as [|a q IH]; intros [|b s]; simpl; try done;
    try lia.
  intros [_ H]%andb_prop. apply IH in H. lia.
Qed.

Lemma includes_length (s q : string) :
  includes s q = true -> (String.length q <= String.length s)%nat.
Proof.
  induction s as [|b s IH]; cbn [includes].
  - rewrite orb_false_r. apply startsWith_length.
  - intros [H%startsWith_length | H%IH]%orb_prop; [done|]. simpl. lia.
Qed.

Lemma length_toLowerCase (s : string) :
  String.length (toLowerCase s) = String.length s.
Proof. induction s as [|c s IH]; simpl; [done | by rewrite IH]. Qed.

Lemma trimStart_shorter (s : string) :
  trimStart s = s \/ (String.length (trimStart s) < String.length s)%nat.
Proof.
  induction s as [|c s IH]; simpl; [by left|].
  destruct (is_ws c); [|by left]. right. destruct IH as [-> | IH]; lia.
Qed.

Lemma trimEnd_shorter (s : string) :
  trimEnd s = s \/ (String.length (trimEnd s) < String.length s)%nat.
Proof.
  induction s as [|c s IH]; [by left|]. rewrite trimEnd_cons.
  destruct IH as [E | IH].
  - rewrite E. destruct s as [|d s]; [|by left].
    destruct (is_ws c); [right; simpl; lia | by left].
  - right. destruct (trimEnd s) as [|d r].
    + destruct (is_ws c); simpl in *; lia.
    + simpl in *. lia.
Qed.

Lemma trim_shorter (s : string) :
  trim s = s \/ (String.length (trim s) < String.length s)%nat.
Proof.
  unfold trim. destruct (trimStart_shorter s) as [E | L].
  - rewrite E. apply trimEnd_shorter.
  - right. destruct (trimEnd_shorter (trimStart s)) as [E | L']; [|lia].
    by rewrite E.
Qed.

End query_facts.

(** X4. A search ignores the case of the query as well: two queries that
    differ only in the case of their letters make the same calls and leave
    the same world. *)
Theorem searchNodes_query_case (q1 q2 : string) (w : World) :
  eq_ignore_case q1 q2 -> searchNodes q1 w = searchNodes q2 w.
Proof.
  intros E. unfold searchNodes.
  by rewrite (eq_ignore_case_trim_truthy q1 q2 E),
    (eq_ignore_case_search_filter q1 q2 E).
Qed.

Lemma searchNodes_query_case_witness :
  searchNodes "Root" demoWorld = searchNodes "rOOT" demoWorld.
Proof.
  apply (searchNodes_query_case "Root" "rOOT" demoWorld).
  apply toLowerCase_eq_iff. reflexivity.
Defined.

(** X5. White space around the query is stripped for the blank test only.
    A query with leading or trailing white space does not find a node whose
    label is that query without the white space (and that has no title):
    the search leaves the node as the reset left it. *)
Theorem searchNodes_keeps_outer_space
  (query : string) (w : World) (ns : gmap Id Node) (i : Id) (n : Node) :
  ~ blank query -> trim query <> query ->
  nodes w = Some ns -> ns !! i = Some n ->
  label n = Some (trim query) -> title n = None ->
  ~ node_matches query n
  /\ exists ns', nodes (searchNodes query w) = Some ns'
                 /\ ns' !! i = Some (reset_node w n).
Proof.
  intros B T Hn Hi L Ti.
  assert (search_filter query n = false) as F.
  { unfold search_filter. rewrite L, Ti, orb_false_r. simpl.
    destruct (includes _ _) eqn:I; [|done].
    apply includes_length in I. rewrite !length_toLowerCase in I.
    destruct (trim_shorter query); [done | lia]. }
  split.
  - intros M%(search_filter_spec query n (blank_nonempty _ B)). congruence.
  - eexists. split; [by apply nodes_searchNodes|].
    rewrite lookup_fmap, Hi. simpl. by rewrite F, andb_false_r.
Qed.

Lemma searchNodes_keeps_outer_space_witness :
  ~ node_matches "Root " {| label := Some "Root"; title := None;
                            node_color := None |}
  /\ exists ns', nodes (searchNodes "Root " demoWorld) = Some ns'
                 /\ ns' !! IdNum 1
                    = Some (reset_node demoWorld
                              {| label := Some "Root"; title := None;
                                 node_color := None |}).
Proof.
  apply (searchNodes_keeps_outer_space "Root " demoWorld demoNodes (IdNum 1)).
  - simpl. intros [W _]. discriminate W.
  - vm_compute. discriminate.
  - reflexivity.
  - vm_compute. reflexivity.
  - reflexivity.
  - reflexivity.
Defined.

(** X6. A query that no node matches makes no [update] call of its own:
    the search is then exactly a reset.  Stated for the browser's own
    [toLowerCase] and [trim]. *)
Theorem searchNodes_without_match
  (lower strip : string -> string) (query : string) (w : World) :
  (forall ns i n, nodes w = Some ns -> ns !! i = Some n ->
     ~ node_matches_over lower query n) ->
  searchNodesOver lower strip query w = resetColors w.
Proof.
  intros H. rewrite searchNodesOver_searchWith.
  destruct (truthy (strip query)); [|apply searchWith_blank].
  destruct (nodes w) as [ns|] eqn:Hn;
    [|by rewrite searchWith_absent, resetColors_absent by auto].
  rewrite (searchWith_not_blank _ w ns Hn).
  pose proof (nodes_resetColors w ns Hn) as N.
  destruct (updates_for (search_filter_over lower query)
              (reset_node w <$> ns)) as [|u us] eqn:U.
  - simpl. rewrite app_nil_r. destruct (resetColors w). simpl in *.
    by rewrite N.
  - assert (u ∈ updates_for (search_filter_over lower query)
                  (reset_node w <$> ns)) as Hu
      by (rewrite U; left).
    apply elem_of_updates_for in Hu as (_ & n & Hi & F);
      [|apply search_filter_over_texts].
    apply search_filter_over_sound in F.
    by destruct (H ns (upd_id u) n).
Qed.

Lemma searchNodes_without_match_witness :
  searchNodesOver toLowerCase trim "zzz" demoWorld = resetColors demoWorld.
Proof.
  apply (searchNodes_without_match toLowerCase trim "zzz" demoWorld).
  intros ns i n [= <-] Hi M.
  apply (search_filter_over_complete toLowerCase "zzz" n) in M;
    [| reflexivity | by intros [|c s] | discriminate].
  assert (map_Forall
            (fun _ n => search_filter_over toLowerCase "zzz" n = false)
            demoNodes) as A.
  { apply map_Forall_to_list. vm_compute. repeat constructor. }
  rewrite (A i n Hi) in M. discriminate M.
Defined.

(** ** What the colour functions leave alone *)

Section colour_frame.
Implicit Types (w : World) (ns : gmap Id Node) (es : gmap Id Edge)
  (query : string).

Lemma outside_resetColors w :
  outside_collections (resetColors w) = outside_collections w.
Proof.
  destruct (nodes w) as [ns|] eqn:Hn, (edges w) as [es|] eqn:He;
    [|by rewrite resetColors_absent by auto ..].
  by rewrite (resetColors_present w ns es).
Qed.

Lemma outside_searchNodes query w :
  outside_collections (searchNodes query w) = outside_collections w.
Proof.
  rewrite <- (outside_resetColors w).
  destruct (nodes w) as [ns|] eqn:Hn.
  - destruct (truthy (trim query)) eqn:T.
    + assert (~ blank query) as B by (rewrite <- trim_blank; congruence).
      by rewrite (searchNodes_not_blank query w ns B Hn).
    + by rewrite searchNodes_blank by (by apply trim_blank).
  - by rewrite searchNodes_absent, resetColors_absent by auto.
Qed.

Lemma reset_node_texts w (n : Node) :
  label (reset_node w n) = label n /\ title (reset_node w n) = title n.
Proof. unfold reset_node. by destruct (edges w). Qed.

Lemma node_texts_fmap w w' ns (f : Node -> Node) :
  (forall n, label (f n) = label n /\ title (f n) = title n) ->
  nodes w = Some ns -> nodes w' = Some (f <$> ns) ->
  node_texts w' = node_texts w.
Proof.
  intros F Hn Hn'. unfold node_texts. rewrite Hn, Hn'. simpl. f_equal.
  rewrite <- map_fmap_compose. apply map_fmap_ext. intros i n _. simpl.
  destruct (F n) as [-> ->]. done.
Qed.

Lemma all_default_recolored w ns es :
  nodes w = Some (with_color nodeDefaultColor <$> ns) ->
  edges w = Some (with_color edgeDefaultColor <$> es) ->
  all_default w.
Proof.
  intros Hn He. split.
  - intros ns' i n. rewrite Hn. intros [= <-]. rewrite lookup_fmap.
    destruct (ns !! i); simpl; [|done]. by intros [= <-].
  - intros es' i e. rewrite He. intros [= <-]. rewrite lookup_fmap.
    destruct (es !! i); simpl; [|done]. by intros [= <-].
Qed.

Lemma clearHighlights_collections w :
  nodes (clearHighlights w) = nodes (resetColors w)
  /\ edges (clearHighlights w) = edges (resetColors w).
Proof.
  unfold clearHighlights. by destruct (getElementById _ _).
Qed.

Lemma search_input_clearHighlights w :
  getElementById "search-input" (clearHighlights w)
  = set_value "" <$> getElementById "search-input" w.
Proof.
  unfold clearHighlights, getElementById.
  assert (elems (resetColors w) = elems w) as E.
  { pose proof (outside_resetColors w) as O. by injection O. }
  rewrite E. destruct (elems w !! "search-input") eqn:I; simpl.
  - by rewrite lookup_insert_eq.
  - by rewrite E, I.
Qed.

Lemma resetColors_set_network (x : option Network) w :
  resetColors (set_network x w) = set_network x (resetColors w).
Proof.
  destruct (nodes w) as [ns|] eqn:Hn, (edges w) as [es|] eqn:He.
  - by rewrite (resetColors_present w ns es),
      (resetColors_present (set_network x w) ns es).
  - by rewrite !resetColors_absent by auto.
  - by rewrite !resetColors_absent by auto.
  - by rewrite !resetColors_absent by auto.
Qed.

Lemma hideNodeInfo_frame w :
  hideNodeInfo w = set_elems (elems (hideNodeInfo w)) w.
Proof.
  unfold hideNodeInfo.
  destruct (getElementById _ w); [done | by rewrite set_elems_elems].
Qed.

Lemma node_info_hideNodeInfo w :
  getElementById "node-info" (hideNodeInfo w)
  = set_display "none" <$> getElementById "node-info" w.
Proof.
  unfold hideNodeInfo, getElementById.
  destruct (elems w !! "node-info") eqn:I; simpl; [|done].
  by rewrite lookup_insert_eq.
Qed.

End colour_frame.

(** X7. [resetColors] and [searchNodes] touch nothing but colours: the page,
    the store, the rendering engine handle and the registered callbacks are
    as before, and every node keeps its label and its title. *)
Theorem colour_functions_touch_colours_only (query : string) (w : World) :
  outside_collections (resetColors w) = outside_collections w
  /\ node_texts (resetColors w) = node_texts w
  /\ outside_collections (searchNodes query w) = outside_collections w
  /\ node_texts (searchNodes query w) = node_texts w.
Proof.
  split; [apply outside_resetColors|].
  split; [|split; [apply outside_searchNodes|]].
  - destruct (nodes w) as [ns|] eqn:Hn.
    + apply (node_texts_fmap w _ ns (reset_node w));
        [apply reset_node_texts | done | by apply nodes_resetColors].
    + by rewrite resetColors_absent by auto.
  - destruct (nodes w) as [ns|] eqn:Hn.
    + eapply (node_texts_fmap w _ ns);
        [| done | by apply nodes_searchNodes].
      intros n. simpl. destruct (_ && _); [done | apply reset_node_texts].
    + by rewrite searchNodes_absent.
Qed.

(** X8. With both collections there, [clearHighlights] after any search
    gives every node the default node colour and every edge the default
    edge colour, as if nothing had been searched, and empties the search
    field when the page has one. *)
Theorem clearHighlights_undoes_search
  (query : string) (w : World) (ns : gmap Id Node) (es : gmap Id Edge) :
  nodes w = Some ns -> edges w = Some es ->
  nodes (clearHighlights (searchNodes query w))
  = Some (with_color nodeDefaultColor <$> ns)
  /\ edges (clearHighlights (searchNodes query w))
     = Some (with_color edgeDefaultColor <$> es)
  /\ all_default (clearHighlights (searchNodes query w))
  /\ (value <$> getElementById "search-input"
                  (clearHighlights (searchNodes query w)))
     = ((fun _ => "") <$> getElementById "search-input" w).
Proof.
  intros Hn He.
  destruct (searchNodes_collections query w ns es Hn He) as [N1 E1].
  destruct (clearHighlights_collections (searchNodes query w)) as [N2 E2].
  rewrite (resetColors_present _ _ _ N1 E1) in N2, E2.
  cbn [nodes edges set_edges set_nodes set_trace] in N2, E2.
  assert (nodes (clearHighlights (searchNodes query w))
          = Some (with_color nodeDefaultColor <$> ns)) as N.
  { rewrite N2. f_equal. rewrite <- map_fmap_compose.
    apply map_fmap_ext. intros i n _. done. }
  assert (edges (clearHighlights (searchNodes query w))
          = Some (with_color edgeDefaultColor <$> es)) as E.
  { rewrite E2. f_equal. apply item_color_fmap_idemp. }
  split; [done|]. split; [done|].
  split; [by apply (all_default_recolored _ ns es)|].
  rewrite search_input_clearHighlights. unfold getElementById.
  pose proof (outside_searchNodes query w) as O. injection O as _ -> _ _ _.
  by destruct (elems w !! "search-input").
Qed.

Lemma clearHighlights_undoes_search_witness :
  nodes (clearHighlights (searchNodes "ROOT" demoWorld))
  = Some (with_color nodeDefaultColor <$> demoNodes)
  /\ edges (clearHighlights (searchNodes "ROOT" demoWorld))
     = Some (with_color edgeDefaultColor <$> demoEdges)
  /\ all_default (clearHighlights (searchNodes "ROOT" demoWorld))
  /\ (value <$> getElementById "search-input"
                  (clearHighlights (searchNodes "ROOT" demoWorld)))
     = ((fun _ => "") <$> getElementById "search-input" demoWorld).
Proof.
  apply (clearHighlights_undoes_search "ROOT" demoWorld demoNodes demoEdges);
    reflexivity.
Defined.

Section clear_selection.
Implicit Types (w : World).

Lemma clearSelection_present w (net : Network) :
  network w = Some net ->
  clearSelection w
  = set_elems (elems (hideNodeInfo w))
      (set_network (Some (unselectAll net)) (resetColors w)).
Proof.
  intros E. unfold clearSelection. rewrite E.
  rewrite hideNodeInfo_frame, resetColors_set_network. f_equal.
  unfold hideNodeInfo, getElementById.
  pose proof (outside_resetColors w) as O. injection O as _ Eel _ _ _.
  cbn [elems set_network]. rewrite Eel.
  destruct (elems w !! "node-info");
    cbn [elems set_element set_elems set_network]; by rewrite Eel.
Qed.

Lemma outside_clearSelection w (net : Network) :
  network w = Some net ->
  outside_collections (clearSelection w)
  = (body_classList w, elems (hideNodeInfo w), localStorage w,
     Some (unselectAll net), listeners w).
Proof.
  intros E. rewrite (clearSelection_present w net E).
  pose proof (outside_resetColors w) as O.
  injection O as Eb _ Es _ El. unfold outside_collections.
  cbn [body_classList elems localStorage network listeners set_elems
       set_network].
  by rewrite Eb, Es, El.
Qed.

Lemma hideNodeInfo_elems_again w w' :
  elems w' = elems (hideNodeInfo w) ->
  elems (hideNodeInfo w') = elems w'.
Proof.
  intros E. unfold hideNodeInfo, getElementById in *.
  destruct (elems w !! "node-info") as [e|] eqn:I.
  - cbn [elems set_element set_elems] in E.
    assert (elems w' !! "node-info" = Some (set_display "none" e)) as I'
      by (by rewrite E, lookup_insert_eq).
    rewrite I'. cbn [elems set_element set_elems]. by apply insert_id.
  - rewrite E, I. by rewrite E.
Qed.

Lemma resetColors_collections_ext w w' :
  nodes w = nodes w' -> edges w = edges w' ->
  nodes (resetColors w) = nodes (resetColors w')
  /\ edges (resetColors w) = edges (resetColors w').
Proof.
  intros N E.
  destruct (nodes w') as [ns|] eqn:Hn, (edges w') as [es|] eqn:He.
  - by rewrite (resetColors_present w ns es),
      (resetColors_present w' ns es).
  - rewrite !(resetColors_absent w), !(resetColors_absent w') by auto.
    by rewrite N, E, Hn, He.
  - rewrite !(resetColors_absent w), !(resetColors_absent w') by auto.
    by rewrite N, E, Hn, He.
  - rewrite !(resetColors_absent w), !(resetColors_absent w') by auto.
    by rewrite N, E, Hn, He.
Qed.

End clear_selection.

(** X9. With the rendering engine handle there, [clearSelection] empties the
    selection and keeps the canvas, leaves the collections as [resetColors]
    does, and hides the node-info panel when the page has one; calling it
    again changes none of these. *)
Theorem clearSelection_with_network (w : World) (net : Network) :
  network w = Some net ->
  network (clearSelection w)
  = Some {| canvas := canvas net; selection := [] |}
  /\ nodes (clearSelection w) = nodes (resetColors w)
  /\ edges (clearSelection w) = edges (resetColors w)
  /\ (display <$> getElementById "node-info" (clearSelection w))
     = ((fun _ => "none") <$> getElementById "node-info" w)
  /\ outside_collections (clearSelection (clearSelection w))
     = outside_collections (clearSelection w)
  /\ nodes (clearSelection (clearSelection w)) = nodes (clearSelection w)
  /\ edges (clearSelection (clearSelection w)) = edges (clearSelection w).
Proof.
  intros E. pose proof (outside_clearSelection w net E) as O1.
  assert (network (clearSelection w) = Some (unselectAll net)) as E'
    by (by rewrite (clearSelection_present w net E)).
  pose proof (outside_clearSelection _ _ E') as O2.
  assert (elems (clearSelection w) = elems (hideNodeInfo w)) as Eel
    by (by rewrite (clearSelection_present w net E)).
  rewrite (hideNodeInfo_elems_again w _ Eel) in O2.
  assert (forall v x, network v = Some x ->
            nodes (clearSelection v) = nodes (resetColors v)
            /\ edges (clearSelection v) = edges (resetColors v)) as C
    by (intros v x Ev; by rewrite (clearSelection_present v x Ev)).
  destruct (C w net E) as [N1 E1].
  destruct (C _ _ E') as [N2 E2].
  destruct (resetColors_collections_ext (clearSelection w) (resetColors w)
              N1 E1) as [N3 E3].
  destruct (resetColors_colours_iter w 1) as [N4 E4].
  cbn [Nat.iter nat_rect] in N4, E4.
  split; [done|]. split; [done|]. split; [done|]. split.
  { unfold getElementById. rewrite Eel.
    fold (getElementById "node-info" (hideNodeInfo w)).
    rewrite node_info_hideNodeInfo. unfold getElementById.
    by destruct (elems w !! "node-info"). }
  split; [|split; congruence].
  rewrite O2. unfold outside_collections. by rewrite E'.
Qed.

Lemma clearSelection_with_network_witness :
  network (clearSelection demoWorld)
  = Some {| canvas := canvas demoNetwork; selection := [] |}
  /\ nodes (clearSelection demoWorld) = nodes (resetColors demoWorld)
  /\ edges (clearSelection demoWorld) = edges (resetColors demoWorld)
  /\ (display <$> getElementById "node-info" (clearSelection demoWorld))
     = ((fun _ => "none") <$> getElementById "node-info" demoWorld)
  /\ outside_collections (clearSelection (clearSelection demoWorld))
     = outside_collections (clearSelection demoWorld)
  /\ nodes (clearSelection (clearSelection demoWorld))
     = nodes (clearSelection demoWorld)
  /\ edges (clearSelection (clearSelection demoWorld))
     = edges (clearSelection demoWorld).
Proof.
  apply (clearSelection_with_network demoWorld demoNetwork). reflexivity.
Defined.

(** ** The theme, once more *)

Section theme_more.
Implicit Types (w : World).

Lemma or_dark_light (v : option string) :
  or_dark v = "light" <-> v = Some "light".
Proof.
  unfold or_dark. destruct v as [s|]; [|done].
  destruct (truthy s) eqn:T; [split; congruence|].
  destruct s; [|done]. done.
Qed.

Lemma themeLoad_isLight w :
  exists w1,
    themeLoad w
    = set_listeners
        (listeners w
         ++ [ThemeInit (bool_decide (stored_theme w = Some "light"))])
        w1
    /\ elems w1 = elems w /\ localStorage w1 = localStorage w
    /\ nodes w1 = nodes w /\ edges w1 = edges w /\ network w1 = network w
    /\ body_classList w1
       = if bool_decide (stored_theme w = Some "light")
         then DOMTokenList.add "light-theme" (body_classList w)
         else body_classList w.
Proof.
  unfold stored_theme. destruct (localStorage w) as [m|] eqn:E.
  - rewrite (themeLoad_available w m E). cbv zeta.
    rewrite (bool_decide_ext _ _ (or_dark_light (m !! "theme"))).
    case_bool_decide; eexists; (split; [reflexivity | done]).
  - rewrite (themeLoad_unavailable w E).
    rewrite bool_decide_eq_false_2 by done. by eexists.
Qed.

Lemma modeName_light (l : bool) :
  bool_decide (Some (modeName l) = Some "light") = l.
Proof. by destruct l. Qed.

Lemma not_btn_id (c : ascii) (rest k : string) :
  c <> "b"%char -> String c rest <> "btn-" +:+ k.
Proof.
  intros H E.
  change ("btn-" +:+ k) with (String "b" ("tn-" +:+ k)) in E. congruence.
Qed.

(** The callback of the theme loader writes the label of the theme button
    and leaves every element alone that is neither that button nor a
    button of the icon registry. *)
Lemma themeInit_elems (isLight : bool) w w' (id : string) :
  runListener w (ThemeInit isLight) = Some w' ->
  (forall e, e ∈ svgIcons -> id <> "btn-" +:+ e.1) ->
  elems w' !! id
  = if decide (id = "theme-toggle-btn")
    then set_content (themeButtonLabel isLight) <$> elems w !! id
    else elems w !! id.
Proof.
  simpl. intros F Hid.
  destruct (forEach_lookup svgIcons _ _ svgIcons_NoDup F) as [O _].
  rewrite (O id Hid). unfold updateThemeButton, getElementById.
  case_decide as D.
  - subst id. destruct (elems w !! "theme-toggle-btn") eqn:T; simpl.
    + by rewrite lookup_insert_eq.
    + by rewrite T.
  - destruct (elems w !! "theme-toggle-btn"); simpl; [|done].
    by rewrite lookup_insert_ne.
Qed.

(** Loading a page on which no callback is registered yet. *)
Lemma pageLoad_fresh w w' :
  listeners w = [] -> pageLoad w = Some w' ->
  exists w2,
    runListener (loadScript w)
      (ThemeInit (bool_decide (stored_theme w = Some "light"))) = Some w2
    /\ w' = infoInit w2.
Proof.
  intros L. unfold pageLoad, domContentLoaded, loadScript. cbv zeta.
  destruct (themeLoad_isLight w) as (w1 & -> & _). rewrite L.
  cbn [listeners set_listeners app dispatch].
  destruct (runListener _ _) as [w2|]; [|done].
  intros [= <-]. by exists w2.
Qed.

Lemma elems_loadScript w : elems (loadScript w) = elems w.
Proof.
  unfold loadScript. cbv zeta.
  destruct (themeLoad_isLight w) as (w1 & -> & E & _). done.
Qed.

Lemma body_loadScript w :
  body_classList (loadScript w)
  = if bool_decide (stored_theme w = Some "light")
    then DOMTokenList.add "light-theme" (body_classList w)
    else body_classList w.
Proof.
  unfold loadScript. cbv zeta.
  destruct (themeLoad_isLight w) as (w1 & -> & _ & _ & _ & _ & _ & B). done.
Qed.

Lemma elems_infoInit_other w (id : string) :
  id <> "info-box" -> id <> "toggle-info-btn" ->
  elems (infoInit w) !! id = elems w !! id.
Proof.
  intros H1 H2. unfold infoInit, getElementById.
  destruct (elems w !! "info-box"); [|done].
  destruct (elems w !! "toggle-info-btn"); [|done].
  cbn [elems set_element set_elems]. by rewrite !lookup_insert_ne.
Qed.

End theme_more.

(** X10. Every call of [toggleTheme] flips the mode of the page and relabels
    the button, whether or not the store works.  With a store the new mode
    is saved; without one the failed write costs one warning on the console,
    nothing is stored, and the call does what it does otherwise. *)
Theorem toggleTheme_survives_store_failure (w : World) :
  isLightMode (toggleTheme w) = negb (isLightMode w)
  /\ theme_label (toggleTheme w)
     = ((fun _ => themeButtonLabel (negb (isLightMode w)))
          <$> getElementById "theme-toggle-btn" w)
  /\ stored_theme (toggleTheme w)
     = ((fun _ => modeName (negb (isLightMode w))) <$> localStorage w)
  /\ trace (toggleTheme w)
     = trace w
       ++ StorageSet "theme" (modeName (negb (isLightMode w)))
       :: match localStorage w with
          | Some _ => []
          | None => [ConsoleWarn storageWarning]
          end
  /\ (nodes (toggleTheme w), edges (toggleTheme w), network (toggleTheme w),
      listeners (toggleTheme w))
     = (nodes w, edges w, network w, listeners w).
Proof.
  split; [apply isLightMode_toggleTheme|]. split.
  { rewrite theme_label_toggleTheme. by destruct (getElementById _ w). }
  split.
  { rewrite stored_theme_toggleTheme. by destruct (localStorage w). }
  rewrite toggleTheme_eq. cbv zeta. rewrite updateThemeButton_frame.
  cbn [trace nodes edges network listeners set_elems].
  destruct (localStorage w); split; try done.
  simpl. by rewrite <- app_assoc.
Qed.

(** X11. What [toggleTheme] saves is what the loader applies: when the page
    is opened again with the store a toggle left, the loader puts the page
    in the mode the toggle switched to and registers its callback for that
    mode. *)
Theorem toggled_theme_is_restored
  (w page : World) (m : gmap string string) :
  localStorage w = Some m ->
  localStorage page = localStorage (toggleTheme w) ->
  isLightMode page = false ->
  isLightMode (themeLoad page) = isLightMode (toggleTheme w)
  /\ listeners (themeLoad page)
     = listeners page ++ [ThemeInit (isLightMode (toggleTheme w))].
Proof.
  intros E P D.
  assert (stored_theme page = Some (modeName (negb (isLightMode w)))) as S.
  { unfold stored_theme. rewrite P, localStorage_toggleTheme, E. simpl.
    by rewrite lookup_insert_eq. }
  destruct (themeLoad_isLight page) as (w1 & -> & _ & _ & _ & _ & _ & B).
  rewrite S, modeName_light in *. rewrite isLightMode_toggleTheme.
  split; [|done]. unfold isLightMode in *.
  cbn [body_classList set_listeners]. rewrite B.
  destruct (negb _); [apply contains_add | done].
Qed.

Lemma toggled_theme_is_restored_witness :
  isLightMode (themeLoad reopenedWorld) = isLightMode (toggleTheme loadedWorld)
  /\ listeners (themeLoad reopenedWorld)
     = listeners reopenedWorld
       ++ [ThemeInit (isLightMode (toggleTheme loadedWorld))].
Proof.
  apply (toggled_theme_is_restored loadedWorld reopenedWorld ∅).
  - vm_compute. reflexivity.
  - reflexivity.
  - vm_compute. reflexivity.
Defined.

(** X12. A page whose [<body>] does not carry the class light-theme and on
    which no callback is registered yet loads in the light theme exactly
    when "light" is stored under "theme" (any other value, no value and no
    store give the dark theme), and once it is ready the theme button, when
    there is one, offers the other theme. *)
Theorem pageLoad_applies_stored_theme (w w' : World) :
  listeners w = [] -> isLightMode w = false -> pageLoad w = Some w' ->
  isLightMode w' = bool_decide (stored_theme w = Some "light")
  /\ theme_label w'
     = ((fun _ => themeButtonLabel (isLightMode w'))
          <$> getElementById "theme-toggle-btn" w)
  /\ localStorage w' = localStorage w.
Proof.
  intros L D P. destruct (pageLoad_fresh w w' L P) as (w2 & R & ->).
  pose proof (runListener_frame _ _ _ R) as F2.
  assert (isLightMode (infoInit w2)
          = bool_decide (stored_theme w = Some "light")) as M.
  { rewrite infoInit_frame, F2. unfold isLightMode in *.
    cbn [body_classList set_elems]. rewrite body_loadScript.
    case_bool_decide; [apply contains_add | done]. }
  split; [done|]. split.
  - rewrite M. unfold theme_label, getElementById.
    rewrite elems_infoInit_other by done.
    rewrite (themeInit_elems _ _ _ "theme-toggle-btn" R)
      by (intros e _; by apply not_btn_id).
    rewrite decide_True by done. rewrite elems_loadScript.
    by destruct (elems w !! "theme-toggle-btn").
  - rewrite infoInit_frame, F2. cbn [localStorage set_elems].
    unfold loadScript. cbv zeta.
    destruct (themeLoad_isLight w) as (w1 & -> & _ & S & _). done.
Qed.

Lemma pageLoad_applies_stored_theme_witness :
  isLightMode loadedWorld = bool_decide (stored_theme demoWorld = Some "light")
  /\ theme_label loadedWorld
     = ((fun _ => themeButtonLabel (isLightMode loadedWorld))
          <$> getElementById "theme-toggle-btn" demoWorld)
  /\ localStorage loadedWorld = localStorage demoWorld.
Proof.
  apply (pageLoad_applies_stored_theme demoWorld loadedWorld).
  - reflexivity.
  - vm_compute. reflexivity.
  - vm_compute. reflexivity.
Defined.



(** ** The info panel, the icons, the tooltip and the JSON export *)

Section token_facts.

Lemma contains_remove (c : string) (l : list string) :
  DOMTokenList.contains c (DOMTokenList.remove c l) = false.
Proof.
  unfold DOMTokenList.contains, DOMTokenList.remove.
  apply bool_decide_eq_false. rewrite list_elem_of_filter. by intros [? _].
Qed.

Lemma contains_remove_other (c d : string) (l : list string) :
  c <> d ->
  DOMTokenList.contains c (DOMTokenList.remove d l)
  = DOMTokenList.contains c l.
Proof.
  intros H. unfold DOMTokenList.contains, DOMTokenList.remove.
  apply bool_decide_ext. rewrite list_elem_of_filter. tauto.
Qed.

Lemma contains_add_other (c d : string) (l : list string) :
  c <> d ->
  DOMTokenList.contains c (DOMTokenList.add d l) = DOMTokenList.contains c l.
Proof.
  intros H. unfold DOMTokenList.add.
  destruct (DOMTokenList.contains d l); [done|].
  unfold DOMTokenList.contains. apply bool_decide_ext.
  rewrite elem_of_app, list_elem_of_singleton. tauto.
Qed.

Lemma contains_toggle_other (c d : string) (l : list string) :
  c <> d ->
  DOMTokenList.contains c (DOMTokenList.toggle d l)
  = DOMTokenList.contains c l.
Proof.
  intros H. unfold DOMTokenList.toggle.
  destruct (DOMTokenList.contains d l); [by apply contains_remove_other|].
  unfold DOMTokenList.contains. apply bool_decide_ext.
  rewrite elem_of_app, list_elem_of_singleton. tauto.
Qed.

End token_facts.

(** X14. With the panel and the button there, one call of [toggleInfoBox]
    flips the class hidden of the panel and nothing else of it, and leaves
    the button with the class info-visible exactly when the panel is now
    visible, its other classes as they were. *)
Theorem toggleInfoBox_mirrors_visibility (w : World) (box btn : Element) :
  getElementById "info-box" w = Some box ->
  getElementById "toggle-info-btn" w = Some btn ->
  exists box' btn',
    getElementById "info-box" (toggleInfoBox w) = Some box'
    /\ getElementById "toggle-info-btn" (toggleInfoBox w) = Some btn'
    /\ DOMTokenList.contains "hidden" (classList box')
       = negb (DOMTokenList.contains "hidden" (classList box))
    /\ DOMTokenList.contains "info-visible" (classList btn')
       = negb (DOMTokenList.contains "hidden" (classList box'))
    /\ (forall c, c <> "hidden" ->
          DOMTokenList.contains c (classList box')
          = DOMTokenList.contains c (classList box))
    /\ (forall c, c <> "info-visible" ->
          DOMTokenList.contains c (classList btn')
          = DOMTokenList.contains c (classList btn))
    /\ (content box', elem_title box', value box', display box')
       = (content box, elem_title box, value box, display box).
Proof.
  unfold toggleInfoBox, getElementById. intros Eb Et. rewrite Eb, Et.
  cbn [classList set_classList]. rewrite contains_toggle.
  destruct (DOMTokenList.contains "hidden" (classList box)) eqn:H;
    cbn [negb elems set_element set_elems];
    rewrite lookup_insert_eq, lookup_insert_ne, lookup_insert_eq by done;
    eexists _, _; (split; [reflexivity|]); (split; [reflexivity|]);
    cbn [classList set_classList set_content set_elem_title content
         elem_title value display];
    rewrite contains_toggle, H; cbn [negb].
  - split; [done|]. split; [apply contains_add|].
    split; [intros c Hc; by apply contains_toggle_other|].
    split; [intros c Hc; by apply contains_add_other | done].
  - split; [done|]. split; [apply contains_remove|].
    split; [intros c Hc; by apply contains_toggle_other|].
    split; [intros c Hc; by apply contains_remove_other | done].
Qed.

Lemma toggleInfoBox_mirrors_visibility_witness :
  exists box' btn',
    getElementById "info-box" (toggleInfoBox demoWorld) = Some box'
    /\ getElementById "toggle-info-btn" (toggleInfoBox demoWorld) = Some btn'
    /\ DOMTokenList.contains "hidden" (classList box')
       = negb (DOMTokenList.contains "hidden" (classList (element "Legend")))
    /\ DOMTokenList.contains "info-visible" (classList btn')
       = negb (DOMTokenList.contains "hidden" (classList box'))
    /\ (forall c, c <> "hidden" ->
          DOMTokenList.contains c (classList box')
          = DOMTokenList.contains c (classList (element "Legend")))
    /\ (forall c, c <> "info-visible" ->
          DOMTokenList.contains c (classList btn')
          = DOMTokenList.contains c (classList (element "i")))
    /\ (content box', elem_title box', value box', display box')
       = (content (element "Legend"), elem_title (element "Legend"),
          value (element "Legend"), display (element "Legend")).
Proof.
  apply (toggleInfoBox_mirrors_visibility demoWorld
           (element "Legend") (element "i")).
  - vm_compute. reflexivity.
  - vm_compute. reflexivity.
Defined.

(** X15. [applyIcons], where it returns, keeps the text of every button up
    to the white space around it, together with the classes, the title, the
    value and the display of the button; it leaves every element alone that
    is not a button of the registry, adds no element and drops none, and
    changes nothing outside the elements of the page. *)
Theorem applyIcons_keeps_text (w w1 : World) :
  applyIcons w = Some w1 ->
  (forall e b, e ∈ svgIcons ->
     getElementById ("btn-" +:+ e.1) w = Some b ->
     exists b1,
       getElementById ("btn-" +:+ e.1) w1 = Some b1
       /\ trim (textContents (content b1)) = trim (textContents (content b))
       /\ (classList b1, elem_title b1, value b1, display b1)
          = (classList b, elem_title b, value b, display b))
  /\ (forall id, (forall e, e ∈ svgIcons -> id <> "btn-" +:+ e.1) ->
        getElementById id w1 = getElementById id w)
  /\ (forall id, is_Some (getElementById id w1)
                 <-> is_Some (getElementById id w))
  /\ w1 = set_elems (elems w1) w.
Proof.
  intros F. unfold getElementById.
  destruct (forEach_lookup svgIcons w w1 svgIcons_NoDup F) as [O I].
  split; [|split; [done|split; [|by apply (forEach_frame svgIcons)]]].
  - intros e b He Eb. destruct (I e He) as [L _]. rewrite L, Eb. simpl.
    eexists. split; [done|]. split; [|done].
    unfold iconized. cbn [content set_content textContents foldr].
    cbn [textContent foldr].
    rewrite (svgIcons_no_text e He).
    change (trim ((" " +:+ trim (textContents (content b))) +:+ EmptyString)
            = trim (textContents (content b))).
    rewrite append_empty_r. apply trim_space_trim.
  - intros id.
    destruct (decide (Exists (fun e => id = "btn-" +:+ e.1) svgIcons))
      as [(e & He & ->)%Exists_exists | N].
    + destruct (I e He) as [L _]. rewrite L. apply fmap_is_Some.
    + rewrite O; [done|]. intros e He ->. apply N, Exists_exists. eauto.
Qed.

Lemma applyIcons_keeps_text_witness :
  (forall e b, e ∈ svgIcons ->
     getElementById ("btn-" +:+ e.1) demoWorld = Some b ->
     exists b1,
       getElementById ("btn-" +:+ e.1) iconsWorld = Some b1
       /\ trim (textContents (content b1)) = trim (textContents (content b))
       /\ (classList b1, elem_title b1, value b1, display b1)
          = (classList b, elem_title b, value b, display b))
  /\ (forall id, (forall e, e ∈ svgIcons -> id <> "btn-" +:+ e.1) ->
        getElementById id iconsWorld = getElementById id demoWorld)
  /\ (forall id, is_Some (getElementById id iconsWorld)
                 <-> is_Some (getElementById id demoWorld))
  /\ iconsWorld = set_elems (elems iconsWorld) demoWorld.
Proof.
  apply (applyIcons_keeps_text demoWorld iconsWorld).
  vm_compute. reflexivity.
Defined.

Section hover_facts.
Implicit Types (w : World) (p : HoverParams).

Lemma set_elem_title_twice (s t : string) (e : Element) :
  set_elem_title s (set_elem_title t e) = set_elem_title s e.
Proof. done. Qed.

Lemma set_element_twice (id : string) (e e' : Element) w :
  set_element id e (set_element id e' w) = set_element id e w.
Proof.
  unfold set_element. cbn [elems set_elems].
  by rewrite insert_insert_eq.
Qed.

(** The handler either leaves the world alone or writes the tooltip of a
    known node with a truthy id on the element of the graph. *)
Lemma handleNodeHover_cases p w :
  handleNodeHover p w = w
  \/ exists i ns n el,
       params_node p = Some i /\ id_truthy i = true
       /\ nodes w = Some ns /\ ns !! i = Some n
       /\ getElementById "mynetwork" w = Some el
       /\ handleNodeHover p w
          = set_element "mynetwork" (set_elem_title (tooltipText n) el) w.
Proof.
  unfold handleNodeHover.
  destruct (params_node p) as [i|] eqn:P; [|by left].
  destruct (nodes w) as [ns|] eqn:N; [|by left].
  destruct (id_truthy i) eqn:T; [|by left].
  destruct (ns !! i) as [n|] eqn:I; [|by left].
  destruct (getElementById "mynetwork" w) as [el|] eqn:E; [|by left].
  right. by exists i, ns, n, el.
Qed.

Lemma handleNodeBlur_set_title (t : string) (el : Element) w :
  getElementById "mynetwork" w = Some el ->
  handleNodeBlur (set_element "mynetwork" (set_elem_title t el) w)
  = handleNodeBlur w.
Proof.
  intros E. unfold handleNodeBlur, getElementById in *.
  cbn [elems set_element set_elems]. rewrite lookup_insert_eq, E.
  by rewrite set_element_twice.
Qed.

End hover_facts.

(** X16. [handleNodeHover] writes the tooltip or does nothing.  When the id
    under the pointer is truthy, the node collection is there and knows the
    id, and the element mynetwork exists, the title of that element becomes
    the tooltip of the node (its title, or "Label: " and its label when the
    title is missing or empty, then a line break and "Click for details")
    and nothing else changes.  In every other case the world is left as it
    is: no id, a falsy id (0 and the empty string are falsy, so a node with
    such an id never gets a tooltip, even when the collection holds it), an
    id the collection does not know, no collection, or no element. *)
Theorem handleNodeHover_tooltip_or_nothing (p : HoverParams) (w : World) :
  (forall i ns n el,
     params_node p = Some i -> id_truthy i = true ->
     nodes w = Some ns -> ns !! i = Some n ->
     getElementById "mynetwork" w = Some el ->
     handleNodeHover p w
     = set_element "mynetwork" (set_elem_title (tooltipText n) el) w
     /\ (elem_title <$> getElementById "mynetwork" (handleNodeHover p w))
        = Some (tooltipText n))
  /\ (handleNodeHover p w = w
      \/ exists i ns n el,
           params_node p = Some i /\ id_truthy i = true
           /\ nodes w = Some ns /\ ns !! i = Some n
           /\ getElementById "mynetwork" w = Some el
           /\ handleNodeHover p w
              = set_element "mynetwork" (set_elem_title (tooltipText n) el) w)
  /\ (params_node p = None \/ params_node p = Some (IdNum 0)
      \/ params_node p = Some (IdStr "") ->
      handleNodeHover p w = w)
  /\ (forall i ns, params_node p = Some i -> nodes w = Some ns ->
        ns !! i = None -> handleNodeHover p w = w)
  /\ (nodes w = None \/ getElementById "mynetwork" w = None ->
      handleNodeHover p w = w).
Proof.
  split; [|split; [apply handleNodeHover_cases|split; [|split]]].
  - intros i ns n el P T N I E. unfold handleNodeHover.
    rewrite P, N, T, I, E. split; [done|].
    unfold getElementById, set_element. cbn [elems set_elems].
    by rewrite lookup_insert_eq.
  - unfold handleNodeHover. intros [-> | [-> | ->]]; [done | |];
      by destruct (nodes w).
  - intros i ns P N I. unfold handleNodeHover. rewrite P, N, I.
    by destruct (id_truthy i).
  - unfold handleNodeHover. intros [-> | ->].
    + by destruct (params_node p).
    + destruct (params_node p) as [i|]; [|done].
      destruct (nodes w) as [ns|]; [|done].
      destruct (id_truthy i); [|done]. by destruct (ns !! i).
Qed.

(** Hovering over the node with id 0 of a page that holds it changes
    nothing; hovering over node 2 shows its title. *)
Example handleNodeHover_zero_id :
  handleNodeHover {| params_node := Some (IdNum 0) |} zeroIdWorld = zeroIdWorld
  /\ (elem_title <$> getElementById "mynetwork"
        (handleNodeHover {| params_node := Some (IdNum 2) |} zeroIdWorld))
     = Some ("Value: ROOT-L" +:+ newline +:+ "Click for details")
  /\ (elem_title <$> getElementById "mynetwork"
        (handleNodeHover {| params_node := Some (IdNum 1) |} zeroIdWorld))
     = Some ("Label: Root" +:+ newline +:+ "Click for details").
Proof. vm_compute. repeat split. Qed.

(** X17. [handleNodeBlur] erases whatever a hover wrote: blurring after a
    hover gives the world that blurring alone gives, blurring twice is
    blurring once, and on a page whose element mynetwork had no title a
    hover followed by a blur gives back the world before the hover. *)
Theorem handleNodeBlur_erases_hover (p : HoverParams) (w : World) :
  handleNodeBlur (handleNodeHover p w) = handleNodeBlur w
  /\ handleNodeBlur (handleNodeBlur w) = handleNodeBlur w
  /\ ((forall el, getElementById "mynetwork" w = Some el ->
         elem_title el = "") ->
      handleNodeBlur (handleNodeHover p w) = w).
Proof.
  assert (handleNodeBlur (handleNodeHover p w) = handleNodeBlur w) as H.
  { destruct (handleNodeHover_cases p w)
      as [-> | (i & ns & n & el & _ & _ & _ & _ & E & ->)]; [done|].
    by apply handleNodeBlur_set_title. }
  split; [done|]. split.
  - unfold handleNodeBlur at 2.
    destruct (getElementById "mynetwork" w) as [el|] eqn:E; [|done].
    rewrite (handleNodeBlur_set_title "" el w E).
    unfold handleNodeBlur. by rewrite E.
  - intros T. rewrite H. unfold handleNodeBlur.
    destruct (getElementById "mynetwork" w) as [el|] eqn:E; [|done].
    specialize (T el eq_refl). unfold set_element, getElementById in *.
    rewrite insert_id; [apply set_elems_elems|].
    rewrite E. f_equal. destruct el. simpl in *. by subst.
Qed.

(** X18. The last hover wins: hovering over a known node with a truthy id
    after any other hover leaves the world that this hover alone leaves. *)
Theorem handleNodeHover_last_wins
  (p1 p2 : HoverParams) (w : World) (i : Id) (ns : gmap Id Node) (n : Node) :
  params_node p2 = Some i -> id_truthy i = true ->
  nodes w = Some ns -> ns !! i = Some n ->
  handleNodeHover p2 (handleNodeHover p1 w) = handleNodeHover p2 w.
Proof.
  intros P T N I.
  destruct (handleNodeHover_cases p1 w)
    as [-> | (i1 & ns1 & n1 & el & _ & _ & _ & _ & E & ->)]; [done|].
  unfold handleNodeHover, getElementById in *.
  rewrite P, T. cbn [nodes elems set_element set_elems].
  rewrite N, I, E, lookup_insert_eq. apply set_element_twice.
Qed.

Lemma handleNodeHover_last_wins_witness :
  handleNodeHover {| params_node := Some (IdNum 2) |}
    (handleNodeHover {| params_node := Some (IdNum 1) |} graphWorld)
  = handleNodeHover {| params_node := Some (IdNum 2) |} graphWorld.
Proof.
  apply (handleNodeHover_last_wins _ _ graphWorld (IdNum 2) demoNodes
           {| label := Some "left child"; title := Some "Value: ROOT-L";
              node_color := Some (ColorStr "#bb9af7") |});
    reflexivity.
Defined.

Section export_json_facts.
Context {Data : Type}.
Context (JSON_stringify : Data -> completion (option string)).
Context (newURL : gmap string Blob -> string).

Lemma revoke_after_create (blob : Blob) (b : Browser) :
  objectURLs b !! newURL (objectURLs b) = None ->
  delete (newURL (objectURLs b))
    (<[newURL (objectURLs b) := blob]> (objectURLs b))
  = objectURLs b.
Proof. intros F. by rewrite delete_insert_eq, delete_id. Qed.

End export_json_facts.

(** X19. [exportJSON], when the browser hands out an object URL that is not
    in use: if the data can be turned into text, the link is clicked once,
    with the given file name (data.json when none is given), and the
    address of the link stands at that moment for a blob of type
    application/json holding that text (the text "undefined" when there is
    none), so that blob is what is downloaded; after the call the URL is
    released, so the object URLs alive are those alive before.  If turning
    the data into text raises, the call raises and nothing has happened. *)
Theorem exportJSON_downloads_and_releases {Data : Type}
  (JSON_stringify : Data -> completion (option string))
  (newURL : gmap string Blob -> string)
  (dataToExport : Data) (filename : option string) (b : Browser) :
  objectURLs b !! newURL (objectURLs b) = None ->
  match JSON_stringify dataToExport with
  | Normal text =>
      let blob := {| blob_text := default "undefined" text;
                     blob_type := "application/json" |} in
      let url := newURL (objectURLs b) in
      exportJSON JSON_stringify newURL dataToExport filename b
      = (Normal (),
         {| world := log (Download (default "data.json" filename) url)
                       (world b);
            objectURLs := objectURLs b;
            downloads := downloads b
                         ++ [(default "data.json" filename, Some blob)] |})
  | Throw e =>
      exportJSON JSON_stringify newURL dataToExport filename b = (Throw e, b)
  end.
Proof.
  intros F. unfold exportJSON.
  destruct (JSON_stringify dataToExport) as [text | e]; [|done].
  cbv zeta. unfold createObjectURL, clickDownload, revokeObjectURL.
  cbn [fst snd world objectURLs downloads].
  by rewrite lookup_insert_eq, (revoke_after_create newURL _ b F).
Qed.

Lemma exportJSON_downloads_and_releases_witness :
  exportJSON demoStringify demoNewURL "{}" (Some "x.json") demoBrowser
  = (Normal (),
     {| world := log (Download "x.json" (demoNewURL ∅)) demoWorld;
        objectURLs := ∅;
        downloads :=
          [("x.json",
            Some {| blob_text := "{}"; blob_type := "application/json" |})]
     |}).
Proof.
  apply (exportJSON_downloads_and_releases demoStringify demoNewURL "{}"
           (Some "x.json") demoBrowser).
  reflexivity.
Defined.

(** Without a file name the download is called data.json; data that cannot
    be turned into text stops the call before anything happens. *)
Example exportJSON_defaults :
  (world (exportJSON demoStringify demoNewURL "[]" None demoBrowser).2)
  = log (Download "data.json" (demoNewURL ∅)) demoWorld
  /\ exportJSON (fun _ : string => Throw "TypeError") demoNewURL "[]" None
       demoBrowser
     = (Throw "TypeError", demoBrowser)
  /\ exportJSON (fun _ : string => Normal None) demoNewURL "[]" None
       demoBrowser
     = exportJSON (fun _ : string => Normal (Some "undefined")) demoNewURL
         "[]" None demoBrowser.
Proof. repeat split. Qed.
